(** * memsniff: the resumable RESP decoder of [protocol/redis/resp.go]

    A shallow embedding of the stack machine of [RespParser] and of the
    byte source it reads from, followed by the properties of the decoder
    stated in the specification. *)

From Stdlib Require Import List ZArith Lia Bool Arith.
From Stdlib Require Import Strings.Byte.
From Stdlib Require Strings.String.
Import ListNotations.
Import String.StringSyntax.

(** ** Bytes and literals *)

Definition bytes := list byte.

Definition B (s : String.string) : bytes := String.list_byte_of_string s.
Bind Scope string_scope with String.string.
Arguments B s%_string_scope.

Definition CR : byte := x0d.
Definition LF : byte := x0a.
Definition crlf : bytes := [CR; LF].

(** ** Go's [int]

    [int] is taken at its 64-bit width.  Values are kept as [Z]; the only
    arithmetic of the decoder that can leave the range is [result + 2] in
    [startParseBulk], which is wrapped explicitly. *)

Definition minInt : Z := (- 2 ^ 63)%Z.
Definition maxInt : Z := (2 ^ 63 - 1)%Z.

Definition wrapInt (z : Z) : Z := ((z + 2 ^ 63) mod 2 ^ 64 - 2 ^ 63)%Z.

Definition inInt (z : Z) : bool := ((minInt <=? z) && (z <=? maxInt))%Z.

(** ** Errors

    [ErrShortRead] belongs to package [reader]; [ProtocolErr] and
    [RecursionLimitErr] are the two error values of [resp.go]; [NumError]
    stands for the [*strconv.NumError] that [strconv.Atoi] returns, with
    its [Err] field ([ErrSyntax] or [ErrRange]). *)

Inductive numErr := ErrSyntax | ErrRange.

Inductive error :=
| ErrShortRead
| ProtocolErr
| RecursionLimitErr
| NumError (e : numErr).

Definition error_eqb (a b : error) : bool :=
  match a, b with
  | ErrShortRead, ErrShortRead => true
  | ProtocolErr, ProtocolErr => true
  | RecursionLimitErr, RecursionLimitErr => true
  | NumError ErrSyntax, NumError ErrSyntax => true
  | NumError ErrRange, NumError ErrRange => true
  | _, _ => false
  end.

(** ** The byte source *)

Module reader.

(** Modelled from the spec: package [assembly/reader] is not part of the
    sources at hand.  Section 6 of the specification gives its contract:
    [read_line] returns the bytes before the next line terminator and
    consumes the terminator, or signals that more data is needed;
    [read_exact n] returns [n] bytes and consumes them, or hands out the
    bytes buffered so far without consuming them; [discard n] advances
    the source past [n] bytes.  The source is the stream received so far
    together with the read position in it; a position beyond the end of
    the stream means that bytes still to arrive have been discarded.
    The contract gives [read_line] and [read_exact] a third outcome, an
    error of the source itself (a fault of the connection), which the
    decoder hands on as it is; it is left out here: the source is a sound
    connection, and what is proved of [Run] is proved over such a
    source. *)
Record Reader := mkReader { data : bytes; pos : nat }.

(** Modelled from the spec: the bytes buffered and not yet consumed. *)
Definition avail (r : Reader) : bytes := skipn (pos r) (data r).

(** Modelled from the spec: the source's position tracking, moved
    forward by [k] bytes. *)
Definition advance (k : nat) (r : Reader) : Reader :=
  {| data := data r; pos := pos r + k |}.

(** Modelled from the spec: [read_exact].  A count that is not positive
    asks for no byte. *)
Definition ReadN (n : Z) (r : Reader) : bytes * option error * Reader :=
  let k := Z.to_nat n in
  if k <=? length (avail r)
  then (firstn k (avail r), None, advance k r)
  else (avail r, Some ErrShortRead, r).

(** Modelled from the spec: the index of the next line terminator, the
    two bytes CR LF, in a byte sequence. *)
Fixpoint indexCRLF (l : bytes) : option nat :=
  match l with
  | [] => None
  | c :: t =>
      match t with
      | [] => None
      | d :: _ =>
          if Byte.eqb c CR && Byte.eqb d LF then Some 0
          else option_map S (indexCRLF t)
      end
  end.

(** Modelled from the spec: [read_line]. *)
Definition ReadLine (r : Reader) : bytes * option error * Reader :=
  match indexCRLF (avail r) with
  | Some i => (firstn i (avail r), None, advance (i + 2) r)
  | None => ([], Some ErrShortRead, r)
  end.

(** Modelled from the spec: [discard].  The contract does not say what
    a count that is not positive does; here it discards nothing. *)
Definition Discard (n : Z) (r : Reader) : Reader := advance (Z.to_nat n) r.

(** Modelled from the spec: the connection layer hands one more chunk
    to the source. *)
Definition feed (c : bytes) (r : Reader) : Reader :=
  {| data := data r ++ c; pos := pos r |}.

(** Modelled from the spec: a source that has received [d] and consumed
    nothing yet. *)
Definition New (d : bytes) : Reader := {| data := d; pos := 0 |}.

End reader.

(** ** [strconv.Atoi]

    The standard library function, as [strconv] computes it where [int]
    has 64 bits: an optional sign, then the digits, read from left to
    right into an unsigned 64-bit number ([ParseUint]).  An empty digit
    string and a byte that is not a decimal digit give [ErrSyntax];
    [ErrRange] is given as soon as the digits read so far overflow 64
    bits, whatever follows them, and at the end when the number does not
    fit [int]. *)

Definition digitOf (c : byte) : option Z :=
  let d := (Z.of_N (Byte.to_N c) - 48)%Z in
  if ((0 <=? d) && (d <=? 9))%Z then Some d else None.

Fixpoint digitsVal (acc : Z) (l : bytes) : option Z :=
  match l with
  | [] => Some acc
  | c :: t =>
      match digitOf c with
      | Some d => digitsVal (acc * 10 + d)%Z t
      | None => None
      end
  end.

Definition maxUint64 : Z := (2 ^ 64 - 1)%Z.

(** The loop of [ParseUint] in base 10: [n >= cutoff] and the overflow
    of [n*10 + d] are tested at each digit, before the next byte is
    looked at. *)
Fixpoint parseUint (n : Z) (l : bytes) : Z + numErr :=
  match l with
  | [] => inl n
  | c :: t =>
      match digitOf c with
      | None => inr ErrSyntax
      | Some d =>
          if (maxUint64 / 10 + 1 <=? n)%Z then inr ErrRange
          else if (maxUint64 <? n * 10 + d)%Z then inr ErrRange
          else parseUint (n * 10 + d)%Z t
      end
  end.

Definition Atoi (s : bytes) : Z + numErr :=
  let '(neg, ds) :=
    match s with
    | c :: t =>
        if Byte.eqb c x2d then (true, t)
        else if Byte.eqb c x2b then (false, t)
        else (false, s)
    | [] => (false, [])
    end in
  match ds with
  | [] => inr ErrSyntax
  | _ =>
      match parseUint 0 ds with
      | inr e => inr e
      | inl n =>
          let v := if neg then (- n)%Z else n in
          if inInt v then inl v else inr ErrRange
      end
  end.

(** ** Decoded values: what an [interface{}] result slot can hold *)

#[warnings="-register-all"]
Inductive value :=
| VNil                          (* nil *)
| VInt (i : Z)                  (* int *)
| VString (s : bytes)           (* string *)
| VError (s : bytes)            (* errors.New(string(out)) *)
| VBytes (b : bytes)            (* []byte *)
| VArray (l : list value).      (* []interface{} *)

(** ** Frames and the parser *)

Definition tagStatus : byte := x2b.
Definition tagError : byte := x2d.
Definition tagInt : byte := x3a.
Definition tagBulk : byte := x24.
Definition tagArray : byte := x2a.

Definition stackLimit : nat := 8.

Record ParserOptions := { BulkCaptureLimit : Z }.

(** The closures that [resp.go] stores in [stackFrame.run], one
    constructor for each [startParse...] function with the variables the
    closure captures. *)
Inductive action :=
| parseValue
| parseSimpleString (asError : bool)
| parseInt
| parseBulk
| parseBulkN (accum : bytes) (n : Z)
| parseArray
| parseNArrayFields (n : Z).

(** [run] is [None] for the nil function of the root frame. *)
Record stackFrame := { run : option action; result : value }.

(** The parser, with the [*reader.Reader] that its closures captured.
    [stack] is kept top first: its head is [p.stack[len(p.stack)-1]] and
    its last element is the root frame [p.stack[0]]. *)
Record RespParser := {
  stack : list stackFrame;
  Options : ParserOptions;
  r : reader.Reader
}.

Definition setStack (s : list stackFrame) (p : RespParser) : RespParser :=
  {| stack := s; Options := Options p; r := r p |}.

Definition setReader (rd : reader.Reader) (p : RespParser) : RespParser :=
  {| stack := stack p; Options := Options p; r := rd |}.

Definition setOptions (o : ParserOptions) (p : RespParser) : RespParser :=
  {| stack := stack p; Options := o; r := r p |}.

(** ** A monad for the bodies of the closures

    A computation changes the parser, records the result slots it writes
    and either returns or panics (a failed type assertion, an index out
    of range, a negative capacity). *)

(** A write of [v] into the result slot of [p.stack[slot]]: by [pop], or
    by a direct assignment. *)
Inductive write :=
| WPop (slot : nat) (v : value)
| WAssign (slot : nat) (v : value).

Inductive res (A : Type) :=
| Ok (a : A) (p : RespParser) (w : list write)
| Panic.
Arguments Ok {A} a p w.
Arguments Panic {A}.

Definition M (A : Type) := RespParser -> res A.

Definition ret {A} (a : A) : M A := fun p => Ok a p [].

Definition bind {A C} (m : M A) (k : A -> M C) : M C :=
  fun p =>
    match m p with
    | Ok a p1 w1 =>
        match k a p1 with
        | Ok c p2 w2 => Ok c p2 (w1 ++ w2)
        | Panic => Panic
        end
    | Panic => Panic
    end.

Definition panic {A} : M A := fun _ => Panic.

Declare Scope go_scope.
Delimit Scope go_scope with go.
Notation "x <- c ;; k" := (bind c (fun x => k))
  (at level 61, c at next level, right associativity) : go_scope.
Notation "c ;; k" := (bind c (fun _ => k))
  (at level 61, right associativity) : go_scope.
Local Open Scope go_scope.

Definition depth : M nat := fun p => Ok (length (stack p)) p [].

Definition limit : M Z := fun p => Ok (BulkCaptureLimit (Options p)) p [].

(** [p.stack = append(p.stack, stackFrame{run: f})] *)
Definition push (f : action) : M unit :=
  fun p => Ok tt (setStack ({| run := Some f; result := VNil |} :: stack p) p) [].

(** [p.stack = p.stack[:len(p.stack)-1]; p.stack[len(p.stack)-1].result = result] *)
Definition pop (v : value) : M unit :=
  fun p =>
    match stack p with
    | _ :: parent :: rest =>
        Ok tt (setStack ({| run := run parent; result := v |} :: rest) p)
           [WPop (length rest) v]
    | _ => Panic
    end.

(** [p.stack[len(p.stack)-1].result = v] *)
Definition assignTop (v : value) : M unit :=
  fun p =>
    match stack p with
    | top :: rest =>
        Ok tt (setStack ({| run := run top; result := v |} :: rest) p)
           [WAssign (length rest) v]
    | [] => Panic
    end.

(** [p.Result()] *)
Definition Result : M value :=
  fun p =>
    match stack p with
    | top :: _ => Ok (result top) p []
    | [] => Panic
    end.

(** [p.stack[len(p.stack)-2].result] *)
Definition resultBelow : M value :=
  fun p =>
    match stack p with
    | _ :: below :: _ => Ok (result below) p []
    | _ => Panic
    end.

Definition ReadN (n : Z) : M (bytes * option error) :=
  fun p => let '(out, err, rd) := reader.ReadN n (r p) in Ok (out, err) (setReader rd p) [].

Definition ReadLine : M (bytes * option error) :=
  fun p => let '(out, err, rd) := reader.ReadLine (r p) in Ok (out, err) (setReader rd p) [].

Definition Discard (n : Z) : M unit :=
  fun p => Ok tt (setReader (reader.Discard n (r p)) p) [].

(** Type assertions [x.(int)] and [x.([]interface{})]. *)
Definition asInt (v : value) : M Z :=
  match v with VInt i => ret i | _ => panic end.

Definition asArray (v : value) : M (list value) :=
  match v with VArray l => ret l | _ => panic end.

(** ** The [startParse...] functions and the closures they push *)

Definition startParseValue : M unit := push parseValue.

Definition startParseSimpleString (asError : bool) : M unit :=
  push (parseSimpleString asError).

Definition startParseInt : M unit := push parseInt.

Definition startParseBulk : M unit := push parseBulk ;; startParseInt.

Definition startParseBulkN (accum : bytes) (n : Z) : M unit :=
  push (parseBulkN accum n).

Definition startParseArray : M unit := push parseArray ;; startParseInt.

Definition startParseNArrayFields (n : Z) : M unit :=
  push (parseNArrayFields n) ;; startParseValue.

(** The body of the closure of each frame; its value is the Go [error]
    returned, [None] for nil.  [make] panics on a negative capacity; here
    it returns for every other capacity, and [runTopIn], further down,
    is the same pass of the loop with the limits of memory. *)
Definition body (a : action) : M (option error) :=
  match a with
  | parseValue =>
      d <- depth ;;
      if stackLimit <? d then ret (Some RecursionLimitErr)
      else
        oe <- ReadN 1 ;;
        match snd oe with
        | Some err => ret (Some err)
        | None =>
            pop VNil ;;
            match fst oe with
            | [] => panic
            | c :: _ =>
                if Byte.eqb c tagStatus then startParseSimpleString false ;; ret None
                else if Byte.eqb c tagError then startParseSimpleString true ;; ret None
                else if Byte.eqb c tagInt then startParseInt ;; ret None
                else if Byte.eqb c tagBulk then startParseBulk ;; ret None
                else if Byte.eqb c tagArray then startParseArray ;; ret None
                else ret (Some ProtocolErr)
            end
        end
  | parseSimpleString asError =>
      oe <- ReadLine ;;
      match snd oe with
      | Some err => ret (Some err)
      | None =>
          (if asError then pop (VError (fst oe)) else pop (VString (fst oe))) ;;
          ret None
      end
  | parseInt =>
      oe <- ReadLine ;;
      match snd oe with
      | Some err => ret (Some err)
      | None =>
          match Atoi (fst oe) with
          | inr e => ret (Some (NumError e))
          | inl i => pop (VInt i) ;; ret None
          end
      end
  | parseBulk =>
      v <- Result ;;
      n <- asInt v ;;
      if (n <? 0)%Z then pop VNil ;; ret None
      else
        lim <- limit ;;
        if (n <=? lim)%Z then
          pop VNil ;; startParseBulkN [] n ;; ret None
        else
          pop (VInt n) ;;
          v' <- Result ;;
          n' <- asInt v' ;;
          Discard (wrapInt (n' + 2)) ;;
          ret None
  | parseBulkN accum n =>
      oe <- ReadN n ;;
      match snd oe with
      | Some err =>
          (if error_eqb err ErrShortRead then
             pop VNil ;;
             Discard (Z.of_nat (length (fst oe))) ;;
             startParseBulkN (accum ++ fst oe) (n - Z.of_nat (length (fst oe)))
           else ret tt) ;;
          ret (Some err)
      | None =>
          Discard 2 ;;
          pop (VBytes (accum ++ fst oe)) ;;
          ret None
      end
  | parseArray =>
      v <- Result ;;
      n <- asInt v ;;
      pop VNil ;;
      (if (n <? 0)%Z then panic else assignTop (VArray [])) ;;
      startParseNArrayFields n ;;
      ret None
  | parseNArrayFields n =>
      v <- Result ;;
      acc <- resultBelow ;;
      results <- asArray acc ;;
      pop (VArray (results ++ [v])) ;;
      if (1 <? n)%Z then startParseNArrayFields (n - 1) ;; ret None
      else ret None
  end.

(** [p.stack[len(p.stack)-1].run()] *)
Definition runTop : M (option error) :=
  fun p =>
    match stack p with
    | [] => Panic
    | top :: _ =>
        match run top with
        | None => Panic
        | Some a => body a p
        end
    end.

(** ** The public API: [Run], [Result], [BulkArray], [Reset], [NewParser] *)

Definition prepend {A} (w : list write) (x : res A) : res A :=
  match x with
  | Ok a p w' => Ok a p (w ++ w')
  | Panic => Panic
  end.

(** The loop of [Run], cut after [fuel] iterations. *)
Fixpoint Run_fuel (fuel : nat) (p : RespParser) : option (res (option error)) :=
  match fuel with
  | 0 => None
  | S fuel' =>
      if length (stack p) =? 1 then Some (Ok None p [])
      else
        match runTop p with
        | Ok None p' w => option_map (prepend w) (Run_fuel fuel' p')
        | Ok (Some err) p' w => Some (Ok (Some err) p' w)
        | Panic => Some Panic
        end
  end.

(** A bound on the iterations of the loop: every iteration that does not
    return consumes input or shrinks the pending work. *)
Definition weight (f : stackFrame) : nat :=
  match run f with
  | None => 0
  | Some parseValue => 0
  | Some parseBulk => 2
  | Some parseArray => 2
  | Some _ => 1
  end.

Definition pending (s : list stackFrame) : nat :=
  match s with
  | {| run := Some parseValue |} :: _ => 0
  | _ => 1
  end.

Definition measure (p : RespParser) : nat :=
  2 * (4 * length (reader.avail (r p)) + list_sum (map weight (stack p)))
  + pending (stack p).

(** [p.Run()]; the fuel is enough for the loop to end ([Run_fuel_enough]). *)
Definition Run (p : RespParser) : res (option error) :=
  match Run_fuel (S (measure p)) p with
  | Some x => x
  | None => Panic
  end.

(** [p.BulkArray()] *)
Definition BulkArray : M (list (option bytes)) :=
  v <- Result ;;
  res <- asArray v ;;
  ret (map (fun b => match b with VBytes x => Some x | _ => None end) res).

(** [p.Reset(r)]: [p.stack = p.stack[:1]] keeps the root frame as it is. *)
Definition Reset (rd : reader.Reader) : M unit :=
  fun p =>
    match rev (stack p) with
    | [] => Panic
    | root :: _ => startParseValue (setReader rd (setStack [root] p))
    end.

(** [NewParser(r)] *)
Definition NewParser (rd : reader.Reader) : res unit :=
  Reset rd {| stack := [{| run := None; result := VNil |}];
              Options := {| BulkCaptureLimit := 0 |};
              r := rd |}.

(** ** Observations and drivers *)

(** What a call leaves behind, without the record of writes. *)
Definition outcome {A} (x : res A) : option (A * RespParser) :=
  match x with
  | Ok a p _ => Some (a, p)
  | Panic => None
  end.

Definition writes {A} (x : res A) : list write :=
  match x with
  | Ok _ _ w => w
  | Panic => []
  end.

(** More bytes arrive on the connection. *)
Definition feed (c : bytes) (p : RespParser) : RespParser :=
  setReader (reader.feed c (r p)) p.

(** A parser for one value with capture limit [lim], on a source that has
    received [input]. *)
Definition parserOn (lim : Z) (input : bytes) : RespParser :=
  {| stack := [{| run := Some parseValue; result := VNil |};
               {| run := None; result := VNil |}];
     Options := {| BulkCaptureLimit := lim |};
     r := reader.New input |}.

(** The caller's loop: call [Run]; when it asks for more data, hand the
    next chunk to the source and call [Run] again.  Chunks left over when
    the parse ends stay in the source. *)
Fixpoint deliver (cs : list bytes) (p : RespParser) : res (option error) :=
  match Run p with
  | Ok (Some ErrShortRead) p' w =>
      match cs with
      | [] => Ok (Some ErrShortRead) p' w
      | c :: cs' => prepend w (deliver cs' (feed c p'))
      end
  | Ok e p' w => Ok e (feed (concat cs) p') w
  | Panic => Panic
  end.

(** The result slot of the root frame [p.stack[0]]. *)
Definition rootResult (p : RespParser) : value :=
  match rev (stack p) with
  | root :: _ => result root
  | [] => VNil
  end.

Definition oneByOne (l : bytes) : list bytes := map (fun c => [c]) l.

Definition scenario6 : bytes :=
  B "*2" ++ crlf ++ B "$3" ++ crlf ++ B "foo" ++ crlf ++ B "$3" ++ crlf ++ B "bar" ++ crlf.

(** ** RESP on the wire

    The values of the protocol and their encoding, against which the
    decoder is checked. *)

#[warnings="-register-all"]
Inductive resp :=
| Status (s : bytes)
| Error (s : bytes)
| Integer (i : Z)
| Bulk (b : bytes)
| NullBulk
| Array (l : list resp)
| NullArray.

Definition digitByte (d : Z) : byte :=
  match d with
  | 0%Z => x30 | 1%Z => x31 | 2%Z => x32 | 3%Z => x33 | 4%Z => x34
  | 5%Z => x35 | 6%Z => x36 | 7%Z => x37 | 8%Z => x38 | _ => x39
  end.

Fixpoint utoa_fuel (fuel : nat) (n : Z) (acc : bytes) : bytes :=
  match fuel with
  | 0 => acc
  | S fuel' =>
      let acc' := digitByte (n mod 10) :: acc in
      if (n <? 10)%Z then acc' else utoa_fuel fuel' (n / 10) acc'
  end.

(** Decimal digits of a natural number, most significant first. *)
Definition utoa (n : Z) : bytes := utoa_fuel (S (Z.to_nat (Z.log2 n))) n [].

(** Decimal text of an integer, without a plus sign. *)
Definition itoa (i : Z) : bytes :=
  if (i <? 0)%Z then x2d :: utoa (- i) else utoa i.

Definition size (l : bytes) : Z := Z.of_nat (length l).

Fixpoint encode (v : resp) : bytes :=
  match v with
  | Status s => tagStatus :: s ++ crlf
  | Error s => tagError :: s ++ crlf
  | Integer i => tagInt :: itoa i ++ crlf
  | Bulk b => tagBulk :: itoa (size b) ++ crlf ++ b ++ crlf
  | NullBulk => tagBulk :: itoa (-1) ++ crlf
  | Array l => tagArray :: itoa (Z.of_nat (length l)) ++ crlf ++ concat (map encode l)
  | NullArray => tagArray :: itoa (-1) ++ crlf
  end.

(** The Go value that stands for a RESP value: a bulk string longer than
    the capture limit is kept as its length, an absent bulk is nil. *)
Fixpoint decoded (lim : Z) (v : resp) : value :=
  match v with
  | Status s => VString s
  | Error s => VError s
  | Integer i => VInt i
  | Bulk b => if (size b <=? lim)%Z then VBytes b else VInt (size b)
  | NullBulk => VNil
  | Array l => VArray (map (decoded lim) l)
  | NullArray => VNil
  end.

Definition noLF (s : bytes) : bool := forallb (fun c => negb (Byte.eqb c LF)) s.

(** Well-formed RESP values: lines without a line feed, integers and
    lengths that fit [int]. *)
Fixpoint valid (v : resp) : bool :=
  match v with
  | Status s | Error s => noLF s
  | Integer i => inInt i
  | Bulk b => (size b + 2 <=? maxInt)%Z
  | NullBulk | NullArray => true
  | Array l => (Z.of_nat (length l) <=? maxInt)%Z && forallb valid l
  end.

(** No array of the value is empty or absent. *)
Fixpoint populated (v : resp) : bool :=
  match v with
  | Array l => negb (length l =? 0) && forallb populated l
  | NullArray => false
  | _ => true
  end.

(** How many arrays enclose the innermost value. *)
Fixpoint nesting (v : resp) : nat :=
  match v with
  | Array l => S (fold_right (fun e m => Nat.max (nesting e) m) 0 l)
  | _ => 0
  end.

(** [k] arrays of one element around [v]. *)
Fixpoint nest (k : nat) (v : resp) : resp :=
  match k with
  | 0 => v
  | S k' => Array [nest k' v]
  end.

(** ** Vocabulary of the statements *)

Definition isDigit (c : byte) : bool :=
  match digitOf c with Some _ => true | None => false end.

(** A parser given by its stack (top first), its options and its source. *)
Definition mk (st : list stackFrame) (o : ParserOptions) (rd : reader.Reader) :=
  {| stack := st; Options := o; r := rd |}.

(** The frame of closure [a], with [v] in its result slot. *)
Definition fr (a : action) (v : value) : stackFrame :=
  {| run := Some a; result := v |}.

(** Frame [f] after [v] was written into its result slot. *)
Definition withResult (v : value) (f : stackFrame) : stackFrame :=
  {| run := run f; result := v |}.

(** The root frame holding [v], alone on the stack. *)
Definition root (v : value) : stackFrame := {| run := None; result := v |}.

(** The parser after a complete parse of [input] that produced [v]. *)
Definition finished (lim : Z) (input : bytes) (v : value) : RespParser :=
  mk [root v] {| BulkCaptureLimit := lim |}
     (reader.advance (length input) (reader.New input)).

(** The frames that [startParseValue]'s closure pushes for a tag byte,
    top first; [None] for a byte that is no tag. *)
Definition handlers (c : byte) : option (list stackFrame) :=
  if Byte.eqb c tagStatus then Some [fr (parseSimpleString false) VNil]
  else if Byte.eqb c tagError then Some [fr (parseSimpleString true) VNil]
  else if Byte.eqb c tagInt then Some [fr parseInt VNil]
  else if Byte.eqb c tagBulk then Some [fr parseInt VNil; fr parseBulk VNil]
  else if Byte.eqb c tagArray then Some [fr parseInt VNil; fr parseArray VNil]
  else None.

(** The loop after one iteration, as a function of what the iteration
    left behind. *)
Definition continue (x : res (option error)) : res (option error) :=
  match x with
  | Ok None p' w => prepend w (Run p')
  | Ok (Some err) p' w => Ok (Some err) p' w
  | Panic => Panic
  end.

(** [steps p q]: the loop of [Run], started on [p], reaches [q] after
    some iterations, none of which failed. *)
Inductive steps : RespParser -> RespParser -> Prop :=
| steps_refl p : steps p p
| steps_step p p1 p2 :
    length (stack p) <> 1 ->
    outcome (runTop p) = Some (None, p1) ->
    steps p1 p2 ->
    steps p p2.

(** Induction on RESP values that reaches the elements of arrays. *)
Fixpoint resp_ind' (P : resp -> Prop)
    (HS : forall s, P (Status s)) (HE : forall s, P (Error s))
    (HI : forall i, P (Integer i)) (HB : forall b, P (Bulk b))
    (HNB : P NullBulk)
    (HA : forall l, Forall P l -> P (Array l))
    (HNA : P NullArray) (v : resp) : P v :=
  match v with
  | Status s => HS s
  | Error s => HE s
  | Integer i => HI i
  | Bulk b => HB b
  | NullBulk => HNB
  | Array l =>
      HA l ((fix all (l : list resp) : Forall P l :=
               match l with
               | [] => Forall_nil P
               | e :: l' =>
                   Forall_cons e (resp_ind' P HS HE HI HB HNB HA HNA e) (all l')
               end) l)
  | NullArray => HNA
  end.

(** A pending "decode one value" frame, placed before the encoding of
    [v], ends popped with [v]'s value in the frame below it and the
    source advanced past the encoding. *)
Definition decodes (o : ParserOptions) (v : resp) : Prop :=
  forall rd x parent rest tail,
    reader.avail rd = encode v ++ tail ->
    S (S (length rest)) + nesting v <= stackLimit ->
    steps (mk (fr parseValue x :: parent :: rest) o rd)
          (mk (withResult (decoded (BulkCaptureLimit o) v) parent :: rest) o
              (reader.advance (length (encode v)) rd)).

(** The frame on top of the stack across deliveries: it runs; when it
    reports a short read the next chunk is fed to the source and the
    frame then on top (the one it reinstalled) runs. *)
Fixpoint resume (cs : list bytes) (p : RespParser) : res (option error) :=
  match runTop p with
  | Ok (Some ErrShortRead) p' w =>
      match cs with
      | [] => Ok (Some ErrShortRead) p' w
      | c :: cs' => prepend w (resume cs' (feed c p'))
      end
  | x => x
  end.

(** A "decode one value" frame is pending on a stack one frame higher
    than [stackLimit] allows. *)
Definition blocked (o : ParserOptions) (q : RespParser) : Prop :=
  exists x parent rest,
    stack q = fr parseValue x :: parent :: rest
    /\ length (stack q) = S stackLimit
    /\ Options q = o.

(** Decoding [v] from a stack that the nesting of [v] takes above
    [stackLimit] reaches a blocked frame. *)
Definition hitsCeiling (o : ParserOptions) (v : resp) : Prop :=
  forall rd x parent rest tail,
    reader.avail rd = encode v ++ tail ->
    S (S (length rest)) <= S stackLimit ->
    stackLimit < S (S (length rest)) + nesting v ->
    exists q, steps (mk (fr parseValue x :: parent :: rest) o rd) q /\ blocked o q.

(** What [BulkArray] makes of an element of the result: [b.([]byte)]. *)
Definition entry (v : value) : option bytes :=
  match v with VBytes x => Some x | _ => None end.

(** The entry expected for an element on the wire. *)
Definition captured (lim : Z) (e : resp) : option bytes :=
  match e with
  | Bulk b => if (size b <=? lim)%Z then Some b else None
  | _ => None
  end.

(** Sample payloads and elements. *)
Definition foo : bytes := B "foo".
Definition bar : bytes := B "bar".

Definition threeBulks : list resp := [Bulk foo; NullBulk; Bulk (B "barbaz"); Integer 7].

(** The decoding property as the specification words it: every valid
    encoding, whatever its arrays and their nesting, decodes to its value
    with the stack back at depth 1. *)
Definition decodes_every_valid_encoding : Prop :=
  forall lim v,
    valid v = true ->
    exists p',
      outcome (Run (parserOn lim (encode v))) = Some (None, p')
      /\ length (stack p') = 1
      /\ rootResult p' = decoded lim v.

(** The slot a write goes to, whether it is a pop, and how many times a
    slot is written in a record of writes. *)
Definition slotOf (w : write) : nat :=
  match w with WPop s _ | WAssign s _ => s end.

Definition isPop (w : write) : bool :=
  match w with WPop _ _ => true | WAssign _ _ => false end.

Definition timesWritten (slot : nat) (ws : list write) : nat :=
  length (filter (fun w => slotOf w =? slot) ws).

(** The write-once property as the specification words it: during a
    parse, no slot is written twice and every write is made by [pop]. *)
Definition slots_written_once_by_pop : Prop :=
  forall lim input slot,
    timesWritten slot (writes (Run (parserOn lim input))) <= 1
    /\ forallb isPop (writes (Run (parserOn lim input))) = true.

(** The error claim as the specification words it, for an integer line:
    a line that is not a number makes [Run] fail with the protocol
    error. *)
Definition non_numeric_line_is_ProtocolErr : Prop :=
  forall lim s,
    noLF s = true -> Atoi s = inr ErrSyntax ->
    option_map fst (outcome (Run (parserOn lim (tagInt :: s ++ crlf))))
    = Some (Some ProtocolErr).

(** A "decode one value" frame within the depth limit stands before a
    byte that is none of the five tags. *)
Definition badTag (p : RespParser) : Prop :=
  exists x parent rest c t,
    stack p = fr parseValue x :: parent :: rest
    /\ length (stack p) <= stackLimit
    /\ reader.avail (r p) = c :: t
    /\ handlers c = None.

(** ** Vocabulary of the further properties *)

Definition isInt (v : value) : bool :=
  match v with VInt _ => true | _ => false end.

Definition isArray (v : value) : bool :=
  match v with VArray _ => true | _ => false end.

(** A frame with action [a] above the frames [below] waits for a value
    to be popped into it: it is the root frame alone, or a "fields" frame
    above a waiting frame whose slot holds the sequence collected so
    far. *)
Fixpoint waitingOn (a : option action) (below : list stackFrame) : bool :=
  match below with
  | [] => match a with None => true | Some _ => false end
  | pf :: below' =>
      match a with
      | Some (parseNArrayFields _) => isArray (result pf) && waitingOn (run pf) below'
      | _ => false
      end
  end.

Definition waiting (st : list stackFrame) : bool :=
  match st with
  | [] => false
  | f :: below => waitingOn (run f) below
  end.

(** The stacks that [Reset] and the closures build: waiting frames, with
    on top of them at most the frames of one value being decoded -- its
    "decode one value" frame, or the frame of its line, or the frame of
    its count with the bulk or array frame below, or a bulk or array frame
    holding its count, or a payload frame -- and no more frames than the
    test of [startParseValue] lets through. *)
Definition wellFormed (st : list stackFrame) : bool :=
  match st with
  | [] => false
  | f :: below =>
      match run f with
      | Some parseValue => waiting below && (length below <=? stackLimit)
      | Some (parseSimpleString _) | Some (parseBulkN _ _) =>
          waiting below && (length below <? stackLimit)
      | Some parseInt =>
          match below with
          | g :: below' =>
              match run g with
              | Some parseBulk | Some parseArray =>
                  waiting below' && (length below' <? stackLimit)
              | _ => waiting below && (length below <? stackLimit)
              end
          | [] => false
          end
      | Some parseBulk | Some parseArray =>
          isInt (result f) && waiting below && (length below <? stackLimit)
      | Some (parseNArrayFields _) | None =>
          waiting st && (length st <=? stackLimit)
      end
  end.

(** The frame of [startParseArray] is on top, holding a negative count. *)
Definition negativeCount (q : RespParser) : Prop :=
  exists n rest, stack q = fr parseArray (VInt n) :: rest /\ (n < 0)%Z.


(** The allocator.  [startParseArray] calls [make([]interface{}, 0, n)]
    with the count it finds in its slot, and [startParseBulk] calls
    [make([]byte, 0, n)] with a length that is within the capture limit.
    Go's [make] panics on a negative capacity and on one whose size is
    beyond what the runtime allocates, and the process dies when the
    memory is not there.  [asked q] is the capacity and the size of an
    element (16 bytes for an [interface{}], 1 for a byte) that the closure
    on top of the stack of [q] hands to [make], if it calls [make]. *)
Definition asked (q : RespParser) : option (Z * Z) :=
  match stack q with
  | f :: _ =>
      match run f, result f with
      | Some parseArray, VInt n => Some (n, 16%Z)
      | Some parseBulk, VInt n =>
          if ((0 <=? n) && (n <=? BulkCaptureLimit (Options q)))%Z
          then Some (n, 1%Z) else None
      | _, _ => None
      end
  | [] => None
  end.

(** [make] does not return: the capacity is negative, or takes more
    than the [room] bytes that the allocator serves. *)
Definition refused (room : Z) (q : RespParser) : bool :=
  match asked q with
  | Some (n, size) => ((n <? 0) || (room <? n * size))%Z
  | None => false
  end.

(** One pass of the loop of [Run], and [Run], where the allocator
    serves [room] bytes. *)
Definition runTopIn (room : Z) (q : RespParser) : res (option error) :=
  if refused room q then Panic else runTop q.

Fixpoint RunIn_fuel (room : Z) (fuel : nat) (p : RespParser)
  : option (res (option error)) :=
  match fuel with
  | 0 => None
  | S fuel' =>
      if length (stack p) =? 1 then Some (Ok None p [])
      else
        match runTopIn room p with
        | Ok None p' w => option_map (prepend w) (RunIn_fuel room fuel' p')
        | Ok (Some err) p' w => Some (Ok (Some err) p' w)
        | Panic => Some Panic
        end
  end.

Definition RunIn (room : Z) (p : RespParser) : res (option error) :=
  match RunIn_fuel room (S (measure p)) p with
  | Some x => x
  | None => Panic
  end.


(** What [pop] leaves of the frames below the one it removes: the
    result goes into the slot of the first of them. *)
Definition popInto (v : value) (below : list stackFrame) : list stackFrame :=
  match below with
  | f :: st => withResult v f :: st
  | [] => []
  end.

(** * Properties *)

(** ** The byte source *)

Lemma avail_advance k rd :
  reader.avail (reader.advance k rd) = skipn k (reader.avail rd).
Proof.
  unfold reader.avail, reader.advance; simpl.
  rewrite skipn_skipn. f_equal. lia.
Qed.

Lemma avail_feed c rd :
  reader.avail (reader.feed c rd)
  = reader.avail rd ++ skipn (reader.pos rd - length (reader.data rd)) c.
Proof. unfold reader.avail, reader.feed; simpl. apply skipn_app. Qed.

Lemma length_avail_advance k rd :
  length (reader.avail (reader.advance k rd)) = length (reader.avail rd) - k.
Proof. rewrite avail_advance. apply length_skipn. Qed.

Lemma indexCRLF_bound l i :
  reader.indexCRLF l = Some i -> i + 2 <= length l.
Proof.
  revert i. induction l as [|c t IH]; simpl; intros i H; [discriminate|].
  destruct t as [|d t']; [discriminate|].
  destruct (Byte.eqb c CR && Byte.eqb d LF).
  - inversion H; subst. simpl. lia.
  - destruct (reader.indexCRLF (d :: t')) as [j|] eqn:E; [|discriminate].
    inversion H; subst. specialize (IH j eq_refl). simpl in *. lia.
Qed.

(** ** [Run] ends *)

Ltac inv H := inversion H; subst; clear H.

Ltac unfold_body :=
  unfold body, startParseBulk, startParseArray, startParseNArrayFields,
    startParseSimpleString, startParseInt, startParseBulkN, startParseValue,
    bind, depth, limit, ReadN, ReadLine, Result, resultBelow, asInt, asArray,
    ret, panic, pop, push, assignTop, Discard, reader.ReadN, reader.ReadLine,
    reader.Discard, setStack, setReader in *.

(** Case analysis along the tests of a closure body, driven by the
    equation [H] that says what the body returned. *)
Ltac split_body H :=
  repeat (cbn [stack Options r run result fst snd app length] in H;
          match type of H with
          | context [match ?x with _ => _ end] =>
              lazymatch x with
              | context [match _ with _ => _ end] => fail
              | _ => let E := fresh "E" in destruct x eqn:E
              end
          end);
  try discriminate H.

Lemma measure_decreases p p' w :
  runTop p = Ok None p' w -> measure p' < measure p.
Proof.
  unfold runTop. destruct p as [st o rd]; simpl.
  destruct st as [|[[a|] v] st]; try discriminate.
  destruct st as [|[pa pv] st];
    destruct a; unfold_body; intros H; split_body H.
  all: inv H.
  all: unfold measure, weight; cbn [stack r run map list_sum pending];
    rewrite ?length_avail_advance.
  all: repeat match goal with
         | H : (_ <=? _) = true |- _ => apply Nat.leb_le in H
         | H : reader.indexCRLF _ = Some _ |- _ => apply indexCRLF_bound in H
         end.
  all: try change (Z.to_nat 1) with 1 in *.
  all: try (destruct pa as [[]|]; simpl; lia).
Qed.

Lemma Run_fuel_enough fuel : forall p,
  measure p < fuel -> exists x, Run_fuel fuel p = Some x.
Proof.
  induction fuel as [|fuel IH]; intros p Hm; [lia|].
  simpl. destruct (length (stack p) =? 1); [eauto|].
  destruct (runTop p) as [[e|] p' w|] eqn:E; eauto.
  apply measure_decreases in E.
  destruct (IH p') as [x Hx]; [lia|]. rewrite Hx. simpl. eauto.
Qed.

Lemma Run_fuel_stable fuel : forall p x fuel',
  Run_fuel fuel p = Some x -> fuel <= fuel' -> Run_fuel fuel' p = Some x.
Proof.
  induction fuel as [|fuel IH]; intros p x fuel' H Hle; [discriminate|].
  destruct fuel' as [|fuel']; [lia|]. simpl in *.
  destruct (length (stack p) =? 1); [assumption|].
  destruct (runTop p) as [[e|] p' w|]; try assumption.
  destruct (Run_fuel fuel p') as [y|] eqn:E; [|discriminate].
  rewrite (IH p' y fuel' E); [assumption | lia].
Qed.

Lemma Run_fuel_Run fuel p :
  measure p < fuel -> Run_fuel fuel p = Some (Run p).
Proof.
  intros Hm. unfold Run.
  destruct (@Run_fuel_enough (S (measure p)) p (Nat.lt_succ_diag_r (measure p))) as [x Hx].
  rewrite Hx. apply Run_fuel_stable with (fuel := S (measure p)); [assumption | lia].
Qed.

(** [Run] is the loop of the source: it returns nil at depth 1, and
    otherwise runs the top frame and goes on unless that fails. *)
Lemma Run_unfold p :
  Run p =
  if length (stack p) =? 1 then Ok None p []
  else match runTop p with
       | Ok None p' w => prepend w (Run p')
       | Ok (Some err) p' w => Ok (Some err) p' w
       | Panic => Panic
       end.
Proof.
  pose proof (@Run_fuel_Run (S (measure p)) p (Nat.lt_succ_diag_r (measure p))) as H.
  simpl in H. destruct (length (stack p) =? 1); [congruence|].
  destruct (runTop p) as [[e|] p' w|] eqn:E; try congruence.
  apply measure_decreases in E.
  rewrite (@Run_fuel_Run (measure p) p') in H by lia.
  simpl in H. congruence.
Qed.

(** ** Data that arrives later does not change what was already decided *)

Lemma indexCRLF_app l c i :
  reader.indexCRLF l = Some i -> reader.indexCRLF (l ++ c) = Some i.
Proof.
  revert i. induction l as [|x t IH]; intros i H; [discriminate|].
  destruct t as [|d t']; [discriminate|].
  change (reader.indexCRLF (x :: d :: t')) with
    (if Byte.eqb x CR && Byte.eqb d LF then Some 0
     else option_map S (reader.indexCRLF (d :: t'))) in H.
  change (reader.indexCRLF ((x :: d :: t') ++ c)) with
    (if Byte.eqb x CR && Byte.eqb d LF then Some 0
     else option_map S (reader.indexCRLF ((d :: t') ++ c))).
  destruct (Byte.eqb x CR && Byte.eqb d LF); [assumption|].
  destruct (reader.indexCRLF (d :: t')) as [j|] eqn:E; [|discriminate].
  rewrite (IH j eq_refl). assumption.
Qed.

Lemma ReadN_feed n rd c out rd' :
  reader.ReadN n rd = (out, None, rd') ->
  reader.ReadN n (reader.feed c rd) = (out, None, reader.feed c rd').
Proof.
  unfold reader.ReadN. rewrite avail_feed, length_app.
  destruct (Z.to_nat n <=? length (reader.avail rd)) eqn:E; [|discriminate].
  intros H; inv H. apply Nat.leb_le in E.
  replace (Z.to_nat n <=? _) with true by (symmetry; apply Nat.leb_le; lia).
  rewrite firstn_app. replace (Z.to_nat n - _) with 0 by lia.
  rewrite firstn_O, app_nil_r. reflexivity.
Qed.

Lemma ReadN_length n rd out rd' :
  reader.ReadN n rd = (out, None, rd') -> length out = Z.to_nat n.
Proof.
  unfold reader.ReadN.
  destruct (Z.to_nat n <=? length (reader.avail rd)) eqn:E; [|discriminate].
  intros H; inv H. apply Nat.leb_le in E. apply firstn_length_le. assumption.
Qed.

Lemma ReadN_short n rd out e rd' :
  reader.ReadN n rd = (out, Some e, rd') ->
  e = ErrShortRead /\ rd' = rd /\ out = reader.avail rd
  /\ length (reader.avail rd) < Z.to_nat n.
Proof.
  unfold reader.ReadN.
  destruct (Z.to_nat n <=? length (reader.avail rd)) eqn:E; [discriminate|].
  intros H; inv H. apply Nat.leb_gt in E. auto.
Qed.

Lemma ReadLine_feed rd c out rd' :
  reader.ReadLine rd = (out, None, rd') ->
  reader.ReadLine (reader.feed c rd) = (out, None, reader.feed c rd').
Proof.
  unfold reader.ReadLine. rewrite avail_feed.
  destruct (reader.indexCRLF (reader.avail rd)) as [i|] eqn:E; [|discriminate].
  intros H; inv H. rewrite (indexCRLF_app _ _ _ E).
  pose proof (indexCRLF_bound _ _ E).
  rewrite firstn_app. replace (i - _) with 0 by lia.
  rewrite firstn_O, app_nil_r. reflexivity.
Qed.

Lemma ReadLine_short rd out e rd' :
  reader.ReadLine rd = (out, Some e, rd') -> e = ErrShortRead /\ rd' = rd.
Proof.
  unfold reader.ReadLine.
  destruct (reader.indexCRLF (reader.avail rd)); [discriminate|].
  intros H; inv H. auto.
Qed.

Ltac unfold_parser :=
  unfold feed in *;
  unfold body, startParseBulk, startParseArray, startParseNArrayFields,
    startParseSimpleString, startParseInt, startParseBulkN, startParseValue,
    bind, depth, limit, ReadN, ReadLine, Result, resultBelow, asInt, asArray,
    ret, panic, pop, push, assignTop, Discard, setStack, setReader in *.

(** Replays on the goal the tests whose outcome is known from the
    hypotheses, reads included once more data has been fed. *)
Ltac replay :=
  repeat (simpl;
          match goal with
          | E : reader.ReadN ?n ?rd = (_, None, _)
            |- context [reader.ReadN ?n (reader.feed ?c ?rd)] =>
              rewrite (@ReadN_feed _ _ c _ _ E)
          | E : reader.ReadLine ?rd = (_, None, _)
            |- context [reader.ReadLine (reader.feed ?c ?rd)] =>
              rewrite (@ReadLine_feed _ c _ _ E)
          | E : ?x = _ |- context [?x] => rewrite E
          end);
  simpl.

Lemma runTop_feed_ok c p p' w :
  runTop p = Ok None p' w -> runTop (feed c p) = Ok None (feed c p') w.
Proof.
  unfold runTop. destruct p as [st o rd]; simpl.
  destruct st as [|[[a|] v] st]; try discriminate.
  destruct st as [|[pa pv] st];
    destruct a; unfold_parser; simpl; intros H; split_body H.
  all: inv H; replay; try reflexivity.
Qed.

Ltac short_reads :=
  repeat match goal with
         | E : reader.ReadN _ _ = (_, Some _, _) |- _ =>
             apply ReadN_short in E; destruct E as (? & ? & ? & ?); subst
         | E : reader.ReadLine _ = (_, Some _, _) |- _ =>
             apply ReadLine_short in E; destruct E as (? & ?); subst
         end.

Lemma runTop_feed_fatal c p p' w e :
  runTop p = Ok (Some e) p' w -> e <> ErrShortRead ->
  runTop (feed c p) = Ok (Some e) (feed c p') w.
Proof.
  unfold runTop. destruct p as [st o rd]; simpl.
  destruct st as [|[[a|] v] st]; try discriminate.
  destruct st as [|[pa pv] st];
    destruct a; unfold_parser; simpl; intros H Hne; split_body H.
  all: inv H; short_reads; try congruence; replay; try reflexivity.
Qed.

Lemma runTop_feed_panic c p :
  runTop p = Panic -> runTop (feed c p) = Panic.
Proof.
  unfold runTop. destruct p as [st o rd]; simpl.
  destruct st as [|[[a|] v] st]; try reflexivity.
  destruct st as [|[pa pv] st];
    destruct a; unfold_parser; simpl; intros H; split_body H.
  all: replay; try reflexivity.
  destruct (reader.ReadN n (reader.feed c rd)) as [[out [e'|]] r1] eqn:E';
    short_reads; reflexivity.
Qed.

(** Reading the rest of a payload after a short read: the bytes handed
    out the first time, followed by what the second read returns, are what
    one read would have returned had all the data been there. *)
Lemma ReadN_resume n rd c :
  length (reader.avail rd) < Z.to_nat n ->
  let k := length (reader.avail rd) in
  exists out e rd1,
    reader.ReadN (n - Z.of_nat k) (reader.feed c (reader.Discard (Z.of_nat k) rd))
    = (out, e, rd1)
    /\ ((e = None
         /\ reader.ReadN n (reader.feed c rd) = (reader.avail rd ++ out, None, rd1))
        \/ (e = Some ErrShortRead
            /\ rd1 = reader.feed c (reader.Discard (Z.of_nat k) rd)
            /\ reader.ReadN n (reader.feed c rd)
               = (reader.avail rd ++ out, Some ErrShortRead, reader.feed c rd))).
Proof.
  intros Hk k. unfold reader.ReadN, reader.Discard.
  rewrite Nat2Z.id.
  change (reader.feed c (reader.advance k rd)) with (reader.advance k (reader.feed c rd)).
  rewrite avail_advance, avail_feed.
  set (A := reader.avail rd) in *.
  set (X := skipn (reader.pos rd - length (reader.data rd)) c).
  assert (HX : skipn k (A ++ X) = X).
  { rewrite skipn_app. unfold k. rewrite Nat.sub_diag, skipn_all. reflexivity. }
  rewrite HX, length_app. fold k.
  assert (Hn : Z.to_nat (n - Z.of_nat k) = Z.to_nat n - k) by lia.
  rewrite Hn.
  destruct (Z.to_nat n - k <=? length X) eqn:E.
  - apply Nat.leb_le in E.
    replace (Z.to_nat n <=? k + length X) with true
      by (symmetry; apply Nat.leb_le; lia).
    do 3 eexists. split; [reflexivity|]. left. split; [reflexivity|].
    rewrite firstn_app. fold k. rewrite firstn_all2 by (fold k; lia).
    f_equal. unfold reader.advance; simpl. f_equal. lia.
  - apply Nat.leb_gt in E.
    replace (Z.to_nat n <=? k + length X) with false
      by (symmetry; apply Nat.leb_gt; lia).
    do 3 eexists. split; [reflexivity|]. right. auto.
Qed.

(** A frame that met a short read left the parser in a state from which
    the next attempt, with more data, does what the first one would have
    done had the data been there. *)
Lemma runTop_feed_short c p p' w :
  runTop p = Ok (Some ErrShortRead) p' w ->
  length (stack p') = length (stack p)
  /\ outcome (runTop (feed c p')) = outcome (runTop (feed c p)).
Proof.
  unfold runTop. destruct p as [st o rd]; simpl.
  destruct st as [|[[a|] v] st]; try discriminate.
  destruct st as [|[pa pv] st];
    destruct a; unfold_parser; simpl; intros H; split_body H.
  all: inv H; short_reads; try discriminate; simpl; split; try reflexivity.
  all: try (rewrite ?E; reflexivity).
  destruct (ReadN_resume n rd c H2) as (out & e & rd1 & E1 & [(-> & E3) | (-> & -> & E3)]);
    rewrite E1, E3; simpl; rewrite <- ?app_assoc.
  - reflexivity.
  - unfold reader.Discard, reader.advance, reader.feed; simpl.
    rewrite length_app, !Nat2Z.id, Nat2Z.inj_add.
    rewrite Z.sub_add_distr, Nat.add_assoc. reflexivity.
Qed.



Lemma outcome_prepend {A} w (x : res A) : outcome (prepend w x) = outcome x.
Proof. destruct x; reflexivity. Qed.

Lemma feed_feed c1 c2 p : feed c2 (feed c1 p) = feed (c1 ++ c2) p.
Proof.
  unfold feed, setReader, reader.feed; simpl. rewrite app_assoc. reflexivity.
Qed.

Lemma feed_nil p : feed [] p = p.
Proof.
  destruct p as [st o [d k]]. unfold feed, setReader, reader.feed; simpl.
  rewrite app_nil_r. reflexivity.
Qed.

Lemma outcome_continue x y :
  outcome x = outcome y -> outcome (continue x) = outcome (continue y).
Proof.
  destruct x as [[e|] p w|], y as [[e'|] p' w'|]; simpl; intros H; inv H;
    rewrite ?outcome_prepend; reflexivity.
Qed.

Lemma Run_feed c : forall p,
  match Run p with
  | Ok (Some ErrShortRead) p' _ =>
      outcome (Run (feed c p')) = outcome (Run (feed c p))
  | Ok e p' w => Run (feed c p) = Ok e (feed c p') w
  | Panic => Run (feed c p) = Panic
  end.
Proof.
  intros p. remember (measure p) as m eqn:Hm. revert p Hm.
  induction m as [m IH] using lt_wf_ind. intros p Hm.
  rewrite (Run_unfold p), (Run_unfold (feed c p)).
  change (length (stack (feed c p))) with (length (stack p)).
  destruct (length (stack p) =? 1) eqn:Hlen; [reflexivity|].
  destruct (runTop p) as [[e|] p1 w|] eqn:E.
  - destruct (error_eqb e ErrShortRead) eqn:Ee.
    + assert (e = ErrShortRead) by (destruct e as [| | |[]]; simpl in Ee; congruence).
      subst e. destruct (runTop_feed_short c _ _ _ E) as [Hl Ho].
      rewrite (Run_unfold (feed c p1)).
      change (length (stack (feed c p1))) with (length (stack p1)).
      rewrite Hl, Hlen. apply (outcome_continue _ _ Ho).
    + assert (Hne : e <> ErrShortRead) by (intros ->; discriminate).
      rewrite (runTop_feed_fatal c _ _ _ _ E Hne).
      destruct e as [| | |[]]; try reflexivity. congruence.
  - rewrite (runTop_feed_ok c _ _ _ E).
    pose proof (measure_decreases _ _ _ E) as Hd.
    specialize (IH (measure p1) ltac:(lia) p1 eq_refl).
    destruct (Run p1) as [[e|] p2 w2|]; simpl.
    + destruct e as [| | |[]]; try (rewrite IH; reflexivity).
      rewrite outcome_prepend. assumption.
    + rewrite IH. reflexivity.
    + rewrite IH. reflexivity.
  - rewrite (runTop_feed_panic c _ E). reflexivity.
Qed.

(** Chunking never changes the outcome: handing the chunks over one at a
    time, resuming [Run] after each request for more data, ends as one
    [Run] on a source that has received all of them. *)
Lemma deliver_Run : forall cs p,
  outcome (deliver cs p) = outcome (Run (feed (concat cs) p)).
Proof.
  induction cs as [|c cs IH]; intros p.
  - simpl. rewrite feed_nil.
    destruct (Run p) as [[[| | |[]]|] p' w|]; rewrite ?feed_nil; reflexivity.
  - pose proof (Run_feed (concat (c :: cs)) p) as HR.
    simpl deliver. destruct (Run p) as [[e|] p' w|].
    + destruct e as [| | |[]]; try (rewrite HR; reflexivity).
      rewrite outcome_prepend, IH, feed_feed. exact HR.
    + rewrite HR. reflexivity.
    + rewrite HR. reflexivity.
Qed.

(** ** Decimal text and [Atoi] *)

Lemma digitOf_digitByte d : (0 <= d <= 9)%Z -> digitOf (digitByte d) = Some d.
Proof.
  intros H.
  assert (d = 0 \/ d = 1 \/ d = 2 \/ d = 3 \/ d = 4 \/ d = 5 \/ d = 6 \/ d = 7
          \/ d = 8 \/ d = 9)%Z as Hd by lia.
  repeat destruct Hd as [-> | Hd]; try subst d; reflexivity.
Qed.

Lemma utoa_fuel_spec fuel : forall n acc,
  fuel <> 0 -> (0 <= n < 2 ^ Z.of_nat fuel)%Z ->
  exists ds,
    utoa_fuel fuel n acc = ds ++ acc
    /\ ds <> []
    /\ forallb isDigit ds = true
    /\ forall a l, digitsVal a (ds ++ l) = digitsVal (a * 10 ^ Z.of_nat (length ds) + n) l.
Proof.
  induction fuel as [|fuel IH]; intros n acc Hf Hn.
  - congruence.
  - simpl utoa_fuel.
    assert (Hd : (0 <= n mod 10 <= 9)%Z) by (pose proof (Z.mod_pos_bound n 10); lia).
    destruct (n <? 10)%Z eqn:E.
    + apply Z.ltb_lt in E. exists [digitByte (n mod 10)].
      split; [reflexivity|]. split; [discriminate|]. split.
      * simpl. unfold isDigit. rewrite digitOf_digitByte by assumption. reflexivity.
      * intros a l. simpl. rewrite digitOf_digitByte by assumption.
        rewrite Z.mod_small by lia. f_equal; lia.
    + apply Z.ltb_ge in E.
      rewrite Nat2Z.inj_succ, Z.pow_succ_r in Hn by lia.
      destruct (IH (n / 10)%Z (digitByte (n mod 10) :: acc)) as (ds & H1 & H2 & H3 & H4).
      { intros ->. simpl in Hn. lia. }
      { split; [apply Z.div_pos; lia|].
        apply Z.div_lt_upper_bound; lia. }
      exists (ds ++ [digitByte (n mod 10)]).
      split; [|split; [|split]].
      * rewrite H1, <- app_assoc. reflexivity.
      * destruct ds; discriminate.
      * rewrite forallb_app, H3. simpl. unfold isDigit.
        rewrite digitOf_digitByte by assumption. reflexivity.
      * intros a l. rewrite <- app_assoc, H4. simpl.
        rewrite digitOf_digitByte by assumption.
        rewrite length_app, Nat2Z.inj_add, Z.pow_add_r by lia. simpl length.
        f_equal. change (Z.of_nat 1) with 1%Z. rewrite Z.pow_1_r.
        pose proof (Z.div_mod n 10). lia.
Qed.

Lemma utoa_spec n :
  (0 <= n)%Z ->
  utoa n <> [] /\ forallb isDigit (utoa n) = true /\ digitsVal 0 (utoa n) = Some n.
Proof.
  intros Hn. unfold utoa.
  destruct (utoa_fuel_spec (S (Z.to_nat (Z.log2 n))) n []) as (ds & H1 & H2 & H3 & H4).
  { discriminate. }
  { split; [assumption|]. rewrite Nat2Z.inj_succ, Z2Nat.id by apply Z.log2_nonneg.
    destruct (Z.eq_dec n 0) as [->|]; [reflexivity|].
    apply Z.log2_spec. lia. }
  rewrite H1, app_nil_r. repeat split; try assumption.
  specialize (H4 0%Z []). rewrite app_nil_r in H4. rewrite H4. reflexivity.
Qed.

Lemma digitOf_range c d : digitOf c = Some d -> (0 <= d <= 9)%Z.
Proof.
  unfold digitOf.
  destruct ((0 <=? Z.of_N (Byte.to_N c) - 48)
            && (Z.of_N (Byte.to_N c) - 48 <=? 9))%Z eqn:E; [|discriminate].
  intros H; inv H. apply andb_prop in E. destruct E as [E1 E2].
  apply Z.leb_le in E1. apply Z.leb_le in E2. split; assumption.
Qed.

Lemma digitsVal_grows l : forall a n,
  (0 <= a)%Z -> digitsVal a l = Some n -> (a <= n)%Z.
Proof.
  induction l as [|c t IH]; intros a n Ha H.
  - inv H. lia.
  - cbn [digitsVal] in H.
    destruct (digitOf c) as [d|] eqn:E; [|discriminate].
    apply digitOf_range in E. apply IH in H; lia.
Qed.

(** On digits whose value fits 64 bits, the loop of [ParseUint] returns
    that value. *)
Lemma digitsVal_parseUint l : forall a n,
  (0 <= a)%Z -> digitsVal a l = Some n -> (n <= maxUint64)%Z ->
  parseUint a l = inl n.
Proof.
  induction l as [|c t IH]; intros a n Ha H Hn.
  - inv H. reflexivity.
  - cbn [digitsVal] in H. cbn [parseUint].
    destruct (digitOf c) as [d|] eqn:E; [|discriminate].
    pose proof (digitOf_range _ _ E) as Hd.
    assert (Hpos : (0 <= a * 10 + d)%Z) by lia.
    pose proof (digitsVal_grows t _ _ Hpos H) as Hg.
    assert (Hc : (maxUint64 / 10 + 1 = 1844674407370955162)%Z) by reflexivity.
    assert (Hm : (maxUint64 = 18446744073709551615)%Z) by reflexivity.
    destruct (maxUint64 / 10 + 1 <=? a)%Z eqn:E1; [apply Z.leb_le in E1; lia|].
    destruct (maxUint64 <? a * 10 + d)%Z eqn:E2; [apply Z.ltb_lt in E2; lia|].
    apply IH; assumption.
Qed.

Lemma inInt_maxUint64 n : (0 <= n)%Z -> inInt n = true \/ inInt (- n) = true ->
  (n <= maxUint64)%Z.
Proof.
  unfold inInt, minInt, maxInt, maxUint64. intros Hn [H|H];
    apply andb_prop in H; destruct H as [H1 H2];
    apply Z.leb_le in H1; apply Z.leb_le in H2; lia.
Qed.

Lemma Atoi_itoa i : inInt i = true -> Atoi (itoa i) = inl i.
Proof.
  intros Hi. unfold itoa, Atoi.
  destruct (i <? 0)%Z eqn:E.
  - apply Z.ltb_lt in E.
    destruct (utoa_spec (- i)) as (H1 & H2 & H3); [lia|].
    apply digitsVal_parseUint in H3;
      [| lia | apply inInt_maxUint64; [lia | right; rewrite Z.opp_involutive; exact Hi]].
    change (Byte.eqb x2d x2d) with true. cbv iota beta.
    destruct (utoa (- i)) as [|c t] eqn:Eu; [congruence|].
    rewrite H3, Z.opp_involutive, Hi. reflexivity.
  - apply Z.ltb_ge in E.
    destruct (utoa_spec i) as (H1 & H2 & H3); [lia|].
    apply digitsVal_parseUint in H3;
      [| lia | apply inInt_maxUint64; [lia | left; exact Hi]].
    destruct (utoa i) as [|c t] eqn:Eu; [congruence|].
    simpl in H2. apply andb_prop in H2. destruct H2 as [Hc _].
    assert (Byte.eqb c x2d = false /\ Byte.eqb c x2b = false) as [-> ->].
    { destruct (Byte.eqb c x2d) eqn:E1.
      - apply Byte.byte_dec_bl in E1. subst c. discriminate.
      - destruct (Byte.eqb c x2b) eqn:E2; [|auto].
        apply Byte.byte_dec_bl in E2. subst c. discriminate. }
    rewrite H3, Hi. reflexivity.
Qed.

(** ** Lines and exact reads *)

Lemma indexCRLF_line s : forall t,
  noLF s = true -> reader.indexCRLF (s ++ crlf ++ t) = Some (length s).
Proof.
  induction s as [|c s IH]; intros t H.
  - reflexivity.
  - simpl in H. apply andb_prop in H. destruct H as [Hc Hs].
    specialize (IH t Hs).
    change ((c :: s) ++ crlf ++ t) with (c :: (s ++ crlf ++ t)).
    destruct (s ++ crlf ++ t) as [|d u] eqn:E.
    + destruct s; discriminate.
    + change (reader.indexCRLF (c :: d :: u)) with
        (if Byte.eqb c CR && Byte.eqb d LF then Some 0
         else option_map S (reader.indexCRLF (d :: u))).
      rewrite IH.
      destruct (Byte.eqb c CR && Byte.eqb d LF) eqn:Et; [|reflexivity].
      apply andb_prop in Et. destruct Et as [_ Ed].
      destruct s as [|d' s'].
      * apply Byte.byte_dec_bl in Ed. inv E. discriminate.
      * inv E. simpl in Hs. rewrite Ed in Hs. discriminate.
Qed.

Lemma ReadLine_line rd s t :
  reader.avail rd = s ++ crlf ++ t -> noLF s = true ->
  reader.ReadLine rd = (s, None, reader.advance (length s + 2) rd).
Proof.
  intros Ha Hs. unfold reader.ReadLine.
  rewrite Ha, (indexCRLF_line s t Hs), firstn_app, Nat.sub_diag, firstn_all.
  simpl. rewrite app_nil_r. reflexivity.
Qed.

Lemma ReadN_exact rd n a t :
  reader.avail rd = a ++ t -> Z.to_nat n = length a ->
  reader.ReadN n rd = (a, None, reader.advance (length a) rd).
Proof.
  intros Ha Hn. unfold reader.ReadN. rewrite Ha, Hn, length_app.
  replace (length a <=? length a + length t) with true
    by (symmetry; apply Nat.leb_le; lia).
  rewrite firstn_app, Nat.sub_diag, firstn_all. simpl. rewrite app_nil_r.
  reflexivity.
Qed.

Lemma avail_after rd a t :
  reader.avail rd = a ++ t -> reader.avail (reader.advance (length a) rd) = t.
Proof.
  intros H. rewrite avail_advance, H, skipn_app, Nat.sub_diag, skipn_all.
  reflexivity.
Qed.

Lemma advance_advance j k rd :
  reader.advance k (reader.advance j rd) = reader.advance (j + k) rd.
Proof. unfold reader.advance; simpl. rewrite Nat.add_assoc. reflexivity. Qed.

Lemma advance_0 rd : reader.advance 0 rd = rd.
Proof. destruct rd. unfold reader.advance; simpl. rewrite Nat.add_0_r. reflexivity. Qed.

Lemma isDigit_noLF c : isDigit c = true -> negb (Byte.eqb c LF) = true.
Proof.
  intros H. destruct (Byte.eqb c LF) eqn:E; [|reflexivity].
  apply Byte.byte_dec_bl in E. subst c. discriminate.
Qed.

Lemma digits_noLF l : forallb isDigit l = true -> noLF l = true.
Proof.
  unfold noLF. induction l as [|c l IH]; simpl; intros H; [reflexivity|].
  apply andb_prop in H. destruct H as [Hc Hl].
  rewrite (isDigit_noLF c Hc), (IH Hl). reflexivity.
Qed.

Lemma itoa_noLF i : noLF (itoa i) = true.
Proof.
  unfold itoa. destruct (i <? 0)%Z eqn:E.
  - apply Z.ltb_lt in E. destruct (utoa_spec (- i)) as (_ & H & _); [lia|].
    apply digits_noLF in H. unfold noLF in *. simpl. assumption.
  - apply Z.ltb_ge in E. destruct (utoa_spec i) as (_ & H & _); [lia|].
    apply digits_noLF. assumption.
Qed.

(** ** One iteration of the loop, frame by frame *)

Lemma withResult_fr v a y : withResult v (fr a y) = fr a v.
Proof. reflexivity. Qed.

Section Frames.

Variables (o : ParserOptions) (rd : reader.Reader).
Variables (parent : stackFrame) (rest : list stackFrame).

Let lim := BulkCaptureLimit o.

Ltac run_frame := unfold runTop, mk, fr, withResult; unfold_parser; simpl.

Lemma step_parseValue x c t :
  reader.avail rd = c :: t ->
  S (S (length rest)) <= stackLimit ->
  outcome (runTop (mk (fr parseValue x :: parent :: rest) o rd)) =
  Some (match handlers c with
        | Some fs => (None, mk (fs ++ withResult VNil parent :: rest) o
                               (reader.advance 1 rd))
        | None => (Some ProtocolErr,
                   mk (withResult VNil parent :: rest) o (reader.advance 1 rd))
        end).
Proof.
  intros Ha Hd. run_frame.
  replace (stackLimit <? S (S (length rest))) with false
    by (symmetry; apply Nat.ltb_ge; assumption).
  simpl. rewrite (ReadN_exact rd 1 [c] t Ha eq_refl). simpl.
  unfold handlers, fr.
  destruct (Byte.eqb c tagStatus); [reflexivity|].
  destruct (Byte.eqb c tagError); [reflexivity|].
  destruct (Byte.eqb c tagInt); [reflexivity|].
  destruct (Byte.eqb c tagBulk); [reflexivity|].
  destruct (Byte.eqb c tagArray); reflexivity.
Qed.

Lemma step_parseValue_deep x :
  stackLimit < S (S (length rest)) ->
  runTop (mk (fr parseValue x :: parent :: rest) o rd) =
  Ok (Some RecursionLimitErr) (mk (fr parseValue x :: parent :: rest) o rd) [].
Proof.
  intros Hd. run_frame.
  replace (stackLimit <? S (S (length rest))) with true
    by (symmetry; apply Nat.ltb_lt; assumption).
  reflexivity.
Qed.

Lemma step_parseSimpleString asError x s t :
  reader.avail rd = s ++ crlf ++ t -> noLF s = true ->
  outcome (runTop (mk (fr (parseSimpleString asError) x :: parent :: rest) o rd)) =
  Some (None, mk (withResult (if asError then VError s else VString s) parent :: rest)
                 o (reader.advance (length s + 2) rd)).
Proof.
  intros Ha Hs. run_frame. rewrite (ReadLine_line rd s t Ha Hs). simpl.
  destruct asError; reflexivity.
Qed.

Lemma step_parseInt x s t :
  reader.avail rd = s ++ crlf ++ t -> noLF s = true ->
  outcome (runTop (mk (fr parseInt x :: parent :: rest) o rd)) =
  Some (match Atoi s with
        | inl i => (None, mk (withResult (VInt i) parent :: rest) o
                             (reader.advance (length s + 2) rd))
        | inr e => (Some (NumError e),
                    mk (fr parseInt x :: parent :: rest) o
                       (reader.advance (length s + 2) rd))
        end).
Proof.
  intros Ha Hs. run_frame. rewrite (ReadLine_line rd s t Ha Hs). simpl.
  destruct (Atoi s); reflexivity.
Qed.

Lemma step_parseBulk n :
  outcome (runTop (mk (fr parseBulk (VInt n) :: parent :: rest) o rd)) =
  Some (None,
        if (n <? 0)%Z then mk (withResult VNil parent :: rest) o rd
        else if (n <=? lim)%Z then
          mk (fr (parseBulkN [] n) VNil :: withResult VNil parent :: rest) o rd
        else
          mk (withResult (VInt n) parent :: rest) o
             (reader.Discard (wrapInt (n + 2)) rd)).
Proof.
  unfold lim. run_frame. destruct (n <? 0)%Z; simpl; [reflexivity|].
  destruct (n <=? BulkCaptureLimit o)%Z; reflexivity.
Qed.

Lemma step_parseBulkN_done accum n x b t :
  reader.avail rd = b ++ t -> Z.to_nat n = length b ->
  outcome (runTop (mk (fr (parseBulkN accum n) x :: parent :: rest) o rd)) =
  Some (None, mk (withResult (VBytes (accum ++ b)) parent :: rest) o
                 (reader.advance (length b + 2) rd)).
Proof.
  intros Ha Hn. run_frame. rewrite (ReadN_exact rd n b t Ha Hn). simpl.
  unfold reader.Discard. rewrite advance_advance. reflexivity.
Qed.

Lemma step_parseBulkN_short accum n x :
  length (reader.avail rd) < Z.to_nat n ->
  outcome (runTop (mk (fr (parseBulkN accum n) x :: parent :: rest) o rd)) =
  Some (Some ErrShortRead,
        mk (fr (parseBulkN (accum ++ reader.avail rd)
                           (n - Z.of_nat (length (reader.avail rd)))) VNil
            :: withResult VNil parent :: rest) o
           (reader.advance (length (reader.avail rd)) rd)).
Proof.
  intros Hn. run_frame. unfold reader.ReadN.
  replace (Z.to_nat n <=? length (reader.avail rd)) with false
    by (symmetry; apply Nat.leb_gt; assumption).
  simpl. unfold reader.Discard. rewrite Nat2Z.id. reflexivity.
Qed.

Lemma step_parseArray n :
  outcome (runTop (mk (fr parseArray (VInt n) :: parent :: rest) o rd)) =
  if (n <? 0)%Z then None
  else Some (None, mk (fr parseValue VNil :: fr (parseNArrayFields n) VNil
                       :: withResult (VArray []) parent :: rest) o rd).
Proof. run_frame. destruct (n <? 0)%Z; reflexivity. Qed.

Lemma step_parseNArrayFields n v acc :
  result parent = VArray acc ->
  outcome (runTop (mk (fr (parseNArrayFields n) v :: parent :: rest) o rd)) =
  Some (None,
        if (1 <? n)%Z then
          mk (fr parseValue VNil :: fr (parseNArrayFields (n - 1)) VNil
              :: withResult (VArray (acc ++ [v])) parent :: rest) o rd
        else mk (withResult (VArray (acc ++ [v])) parent :: rest) o rd).
Proof.
  intros Hp. run_frame. rewrite Hp. simpl. destruct (1 <? n)%Z; reflexivity.
Qed.

End Frames.

(** ** Runs of several iterations *)

Lemma steps_trans p q s : steps p q -> steps q s -> steps p s.
Proof. induction 1; intros; [assumption|]. eapply steps_step; eauto. Qed.

Lemma steps_one p q :
  length (stack p) <> 1 -> outcome (runTop p) = Some (None, q) -> steps p q.
Proof. intros. eapply steps_step; eauto using steps_refl. Qed.

Lemma steps_Run p q : steps p q -> outcome (Run p) = outcome (Run q).
Proof.
  induction 1 as [|p p1 p2 Hl Hs _ IH]; [reflexivity|].
  rewrite (Run_unfold p).
  apply Nat.eqb_neq in Hl. rewrite Hl.
  destruct (runTop p) as [[e|] p' w|]; simpl in Hs; inv Hs.
  rewrite outcome_prepend. assumption.
Qed.

Lemma Run_done st o rd :
  length st = 1 -> Run (mk st o rd) = Ok None (mk st o rd) [].
Proof.
  intros H. rewrite Run_unfold. simpl. rewrite H. reflexivity.
Qed.

Lemma avail_after_line rd s t :
  reader.avail rd = s ++ crlf ++ t ->
  reader.avail (reader.advance (length s + 2) rd) = t.
Proof.
  intros H. rewrite app_assoc in H. apply avail_after in H.
  rewrite length_app in H. exact H.
Qed.

Lemma wrapInt_id z : inInt z = true -> wrapInt z = z.
Proof.
  unfold inInt, wrapInt, minInt, maxInt. intros H.
  apply andb_prop in H. destruct H as [H1 H2].
  apply Z.leb_le in H1, H2. rewrite Z.mod_small; lia.
Qed.

Lemma nesting_Array_bound l :
  Forall (fun e => nesting e <= pred (nesting (Array l))) l.
Proof.
  simpl. induction l as [|e l IH]; constructor; simpl.
  - apply Nat.le_max_l.
  - eapply Forall_impl; [|exact IH]. simpl. intros a Ha.
    etransitivity; [exact Ha|]. apply Nat.le_max_r.
Qed.

Lemma header_avail tag n rd tail :
  reader.avail rd = tag :: itoa n ++ crlf ++ tail ->
  reader.avail (reader.advance (S (length (itoa n) + 2)) rd) = tail.
Proof.
  intros Ha.
  change (tag :: itoa n ++ crlf ++ tail) with ([tag] ++ itoa n ++ crlf ++ tail) in Ha.
  rewrite !app_assoc in Ha. apply avail_after in Ha.
  rewrite !length_app in Ha. simpl in Ha.
  replace (S (length (itoa n) + 2)) with (1 + length (itoa n) + 2) by lia.
  exact Ha.
Qed.

(** ** Decoding an encoded value *)

Section Decoding.

Variable o : ParserOptions.

Let lim := BulkCaptureLimit o.

Ltac first_step := eapply steps_step; [simpl; lia | | ].
Ltac last_step := eapply steps_one; [simpl; lia | ].

Lemma decodes_line (asError : bool) s :
  noLF s = true ->
  decodes o (if asError then Error s else Status s).
Proof.
  intros Hs rd x parent rest tail Ha Hd.
  assert (Hd' : S (S (length rest)) <= stackLimit) by lia.
  destruct asError; simpl in Ha; rewrite <- app_assoc in Ha.
  all: first_step;
    [ rewrite (step_parseValue o rd parent rest x _ _ Ha Hd'); reflexivity | ];
    last_step; simpl;
    rewrite (step_parseSimpleString o (reader.advance 1 rd)
               (withResult VNil parent) rest _ VNil s tail
               (avail_after rd [_] _ Ha) Hs);
    rewrite advance_advance; simpl; rewrite length_app; reflexivity.
Qed.

Lemma decodes_Integer i : inInt i = true -> decodes o (Integer i).
Proof.
  intros Hi rd x parent rest tail Ha Hd.
  assert (Ha' : reader.avail rd = tagInt :: itoa i ++ crlf ++ tail).
  { rewrite Ha. simpl. rewrite <- app_assoc. reflexivity. }
  assert (Hd' : S (S (length rest)) <= stackLimit) by lia.
  first_step.
  { rewrite (step_parseValue o rd parent rest x _ _ Ha' Hd'). reflexivity. }
  last_step. simpl.
  rewrite (step_parseInt o (reader.advance 1 rd) (withResult VNil parent)
             rest VNil (itoa i) tail (avail_after rd [_] _ Ha') (itoa_noLF i)).
  rewrite (Atoi_itoa i Hi), advance_advance.
  simpl. rewrite length_app. reflexivity.
Qed.

(** The header line of a bulk string or an array: the tag, the count
    and the terminator leave the count in the frame that was pushed for
    it. *)
Lemma header_steps tag a n rd x parent rest tail :
  handlers tag = Some [fr parseInt VNil; fr a VNil] ->
  inInt n = true ->
  reader.avail rd = tag :: itoa n ++ crlf ++ tail ->
  S (S (length rest)) <= stackLimit ->
  steps (mk (fr parseValue x :: parent :: rest) o rd)
        (mk (fr a (VInt n) :: withResult VNil parent :: rest) o
            (reader.advance (S (length (itoa n) + 2)) rd)).
Proof.
  intros Hh Hn Ha Hd.
  first_step.
  { rewrite (step_parseValue o rd parent rest x _ _ Ha Hd), Hh. cbv iota.
    reflexivity. }
  last_step. simpl.
  rewrite (step_parseInt o (reader.advance 1 rd) (fr a VNil)
             (withResult VNil parent :: rest) VNil (itoa n) tail
             (avail_after rd [_] _ Ha) (itoa_noLF n)).
  rewrite (Atoi_itoa n Hn), advance_advance. reflexivity.
Qed.

Lemma decodes_NullBulk : decodes o NullBulk.
Proof.
  intros rd x parent rest tail Ha Hd.
  assert (Ha' : reader.avail rd = tagBulk :: itoa (-1) ++ crlf ++ tail).
  { rewrite Ha. reflexivity. }
  eapply steps_trans.
  { apply (header_steps tagBulk parseBulk (-1)%Z rd x parent rest tail
             eq_refl eq_refl Ha'). lia. }
  last_step. rewrite step_parseBulk. reflexivity.
Qed.

Lemma decodes_Bulk b : (size b + 2 <=? maxInt)%Z = true -> decodes o (Bulk b).
Proof.
  intros Hb rd x parent rest tail Ha Hd.
  apply Z.leb_le in Hb.
  assert (Hn : inInt (size b) = true).
  { unfold inInt, size, minInt in *. apply andb_true_intro.
    split; apply Z.leb_le; lia. }
  assert (Ha' : reader.avail rd
                = tagBulk :: itoa (size b) ++ crlf ++ (b ++ crlf ++ tail)).
  { rewrite Ha. repeat (simpl; rewrite <- ?app_assoc). reflexivity. }
  pose proof (header_avail _ _ _ _ Ha') as Hav.
  eapply steps_trans.
  { apply (header_steps tagBulk parseBulk (size b) rd x parent rest _
             eq_refl Hn Ha'). lia. }
  assert (Hlen : length (encode (Bulk b))
                 = S (length (itoa (size b)) + 2) + (length b + 2)).
  { repeat (simpl; rewrite ?length_app). lia. }
  rewrite Hlen, <- advance_advance.
  set (rd1 := reader.advance (S (length (itoa (size b)) + 2)) rd) in *.
  simpl decoded. fold lim.
  assert (Hneg : (size b <? 0)%Z = false) by (apply Z.ltb_ge; unfold size; lia).
  destruct (size b <=? lim)%Z eqn:El.
  - first_step.
    { rewrite step_parseBulk, Hneg. fold lim. rewrite El. cbv iota.
      reflexivity. }
    last_step.
    rewrite (step_parseBulkN_done o rd1 _ rest [] (size b)
               VNil b (crlf ++ tail) Hav).
    + reflexivity.
    + unfold size. apply Nat2Z.id.
  - last_step.
    rewrite step_parseBulk, Hneg. fold lim. rewrite El.
    rewrite wrapInt_id.
    + unfold reader.Discard, size.
      replace (Z.to_nat (Z.of_nat (length b) + 2)) with (length b + 2) by lia.
      reflexivity.
    + unfold inInt, size, minInt in *. apply andb_true_intro.
      split; apply Z.leb_le; lia.
Qed.

(** The elements of an array, one after the other: each is decoded on
    top of the "n fields left" frame, which appends it to the sequence
    kept in the frame below. *)
Lemma decodes_fields l :
  Forall (decodes o) l ->
  forall n acc rd x y pf rest tail,
    l <> [] ->
    n = Z.of_nat (length l) ->
    result pf = VArray acc ->
    reader.avail rd = concat (map encode l) ++ tail ->
    Forall (fun e => S (S (S (length rest))) + nesting e <= stackLimit) l ->
    steps (mk (fr parseValue x :: fr (parseNArrayFields n) y :: pf :: rest) o rd)
          (mk (withResult (VArray (acc ++ map (decoded lim) l)) pf :: rest) o
              (reader.advance (length (concat (map encode l))) rd)).
Proof.
  induction 1 as [|e l He Hl IH]; intros n acc rd x y pf rest tail Hne Hn Hpf Ha Hd;
    [congruence|].
  inversion Hd as [|? ? Hde Hdl]; subst.
  simpl in Ha. rewrite <- app_assoc in Ha.
  eapply steps_trans.
  { apply (He rd x (fr (parseNArrayFields (Z.of_nat (length (e :: l)))) y)
             (pf :: rest) _ Ha). simpl. lia. }
  pose proof (avail_after _ _ _ Ha) as Hav.
  set (rd1 := reader.advance (length (encode e)) rd) in *.
  assert (Hr : reader.advance (length (concat (map encode (e :: l)))) rd
               = reader.advance (length (concat (map encode l))) rd1).
  { unfold rd1. rewrite advance_advance. simpl. rewrite length_app. reflexivity. }
  rewrite Hr.
  rewrite withResult_fr.
  destruct l as [|e' l'].
  - last_step.
    rewrite (step_parseNArrayFields o rd1 pf rest _ (decoded lim e) acc Hpf).
    simpl. rewrite advance_0. reflexivity.
  - first_step.
    { rewrite (step_parseNArrayFields o rd1 pf rest _ (decoded lim e) acc Hpf).
      replace (1 <? Z.of_nat (length (e :: e' :: l')))%Z with true
        by (symmetry; apply Z.ltb_lt; simpl length; lia).
      cbv iota. reflexivity. }
    replace (acc ++ map (decoded lim) (e :: e' :: l'))
      with ((acc ++ [decoded lim e]) ++ map (decoded lim) (e' :: l'))
      by (rewrite <- app_assoc; reflexivity).
    apply (IH _ (acc ++ [decoded lim e]) rd1 VNil VNil
             (withResult (VArray (acc ++ [decoded lim e])) pf) rest tail).
    + discriminate.
    + simpl length. lia.
    + reflexivity.
    + exact Hav.
    + exact Hdl.
Qed.

Lemma decodes_Array l :
  Forall (decodes o) l ->
  l <> [] -> (Z.of_nat (length l) <=? maxInt)%Z = true ->
  decodes o (Array l).
Proof.
  intros Hl Hne Hn rd x parent rest tail Ha Hd.
  apply Z.leb_le in Hn.
  set (n := Z.of_nat (length l)) in *.
  assert (Hi : inInt n = true).
  { unfold inInt, minInt, n in *. apply andb_true_intro.
    split; apply Z.leb_le; lia. }
  assert (Ha' : reader.avail rd
                = tagArray :: itoa n ++ crlf ++ (concat (map encode l) ++ tail)).
  { rewrite Ha. repeat (simpl; rewrite <- ?app_assoc). reflexivity. }
  pose proof (header_avail _ _ _ _ Ha') as Hav.
  eapply steps_trans.
  { apply (header_steps tagArray parseArray n rd x parent rest _ eq_refl Hi Ha').
    lia. }
  assert (Hlen : length (encode (Array l))
                 = S (length (itoa n) + 2) + length (concat (map encode l))).
  { repeat (simpl; rewrite ?length_app). fold n. lia. }
  rewrite Hlen, <- advance_advance.
  set (rd1 := reader.advance (S (length (itoa n) + 2)) rd) in *.
  first_step.
  { rewrite step_parseArray.
    replace (n <? 0)%Z with false by (symmetry; apply Z.ltb_ge; unfold n; lia).
    cbv iota. reflexivity. }
  apply (decodes_fields l Hl n [] rd1 VNil VNil
           (withResult (VArray []) (withResult VNil parent)) rest tail
           Hne eq_refl eq_refl Hav).
  eapply Forall_impl; [|apply (nesting_Array_bound l)].
  intros e He. simpl in He, Hd. lia.
Qed.

End Decoding.

Lemma decodes_value o v :
  valid v = true -> populated v = true -> decodes o v.
Proof.
  induction v as [s|s|i|b| |l IH| ] using resp_ind'; simpl; intros Hv Hp.
  - apply (decodes_line o false s Hv).
  - apply (decodes_line o true s Hv).
  - apply decodes_Integer; assumption.
  - apply decodes_Bulk; assumption.
  - apply decodes_NullBulk.
  - apply andb_prop in Hv, Hp. destruct Hv as [Hn Hv], Hp as [Hne Hp].
    apply decodes_Array; [| |assumption].
    + rewrite forallb_forall in Hv, Hp. rewrite Forall_forall in *.
      intros e He. apply IH; auto.
    + intros ->. discriminate.
  - discriminate.
Qed.

Lemma avail_New input : reader.avail (reader.New input) = input.
Proof. reflexivity. Qed.

(** A value within the nesting bound, with no empty or absent array,
    alone on the source: [Run] returns nil with the value in the root. *)
Lemma Run_decodes lim v :
  valid v = true -> populated v = true -> nesting v + 2 <= stackLimit ->
  outcome (Run (parserOn lim (encode v)))
  = Some (None, finished lim (encode v) (decoded lim v)).
Proof.
  intros Hv Hp Hn.
  rewrite (steps_Run _ (finished lim (encode v) (decoded lim v))).
  - unfold finished. rewrite Run_done; reflexivity.
  - apply (decodes_value {| BulkCaptureLimit := lim |} v Hv Hp
             (reader.New (encode v)) VNil (root VNil) [] []).
    + rewrite app_nil_r. reflexivity.
    + simpl. lia.
Qed.

Lemma parserOn_feed lim cs :
  feed cs (parserOn lim []) = parserOn lim cs.
Proof. reflexivity. Qed.

(** [parserOn] is the parser that [NewParser] returns, with the capture
    limit set in its [Options]. *)
Lemma NewParser_parserOn input :
  outcome (NewParser (reader.New input)) = Some (tt, parserOn 0 input)
  /\ forall lim,
       setOptions {| BulkCaptureLimit := lim |} (parserOn 0 input) = parserOn lim input.
Proof. split; reflexivity. Qed.

Lemma concat_oneByOne l : concat (oneByOne l) = l.
Proof. induction l as [|c l IH]; simpl; [|rewrite IH]; reflexivity. Qed.

(** * The claims of the specification *)

(** ** Single-chunk decoding *)

Lemma scenario6_encoding : scenario6 = encode (Array [Bulk foo; Bulk bar]).
Proof. reflexivity. Qed.

(** C1, counterexample: seven arrays around an integer are a valid
    encoding, and [Run] fails on it with the recursion-limit error. *)
Lemma single_chunk_counterexample : ~ decodes_every_valid_encoding.
Proof.
  intros H. destruct (H 10%Z (nest 7 (Integer 5)) eq_refl) as (p' & Hr & _).
  vm_compute in Hr. discriminate Hr.
Qed.

(** With the capture limit that [NewParser] sets, the bulk strings of
    the array of scenario 6 are kept as their lengths. *)
Example scenario6_default_limit :
  option_map (fun x => rootResult (snd x)) (outcome (Run (parserOn 0 scenario6)))
  = Some (VArray [VInt 3; VInt 3]).
Proof. vm_compute. reflexivity. Qed.

(** C1, as amended: for every valid encoding in which no array is empty
    or absent and whose arrays nest so that the stack stays within
    [stackLimit] (the root, one frame for each enclosing array and the
    frame of the value: at most six arrays deep), [Run] on a source
    holding the whole encoding returns nil, the stack is back to the root
    frame alone, the root holds the corresponding value (a bulk string
    above the capture limit as its length) and the source is consumed to
    the end of the encoding. *)
Theorem decode_single_chunk lim v :
  valid v = true -> populated v = true -> nesting v + 2 <= stackLimit ->
  exists p',
    outcome (Run (parserOn lim (encode v))) = Some (None, p')
    /\ length (stack p') = 1
    /\ rootResult p' = decoded lim v
    /\ reader.pos (r p') = length (encode v).
Proof.
  intros Hv Hp Hn. exists (finished lim (encode v) (decoded lim v)).
  split; [apply Run_decodes; assumption|]. repeat split.
Qed.

(** Scenario 6 with a capture limit of 10: the array of "foo" and "bar",
    in that order. *)
Lemma decode_single_chunk_witness :
  exists p',
    outcome (Run (parserOn 10 scenario6)) = Some (None, p')
    /\ length (stack p') = 1
    /\ rootResult p' = VArray [VBytes foo; VBytes bar]
    /\ reader.pos (r p') = 22.
Proof.
  exact (decode_single_chunk 10 (Array [Bulk foo; Bulk bar])
           eq_refl eq_refl (le_S _ _ (le_S _ _ (le_S _ _ (le_S _ _ (le_S _ _ (le_n 3))))))).
Defined.

(** Scenario 6 under every capture limit of at least 3. *)
Example scenario6_captured lim :
  (3 <= lim)%Z ->
  outcome (Run (parserOn lim scenario6))
  = Some (None, finished lim scenario6 (VArray [VBytes foo; VBytes bar])).
Proof.
  intros Hl. rewrite scenario6_encoding, Run_decodes by (reflexivity || (cbv; lia)).
  simpl decoded. change (size foo) with 3%Z. change (size bar) with 3%Z.
  apply Z.leb_le in Hl. rewrite Hl. reflexivity.
Qed.

(** ** Arrays of declared count 0 and below *)

(** C3, the code at [*0\r\n]: after the header the decoder has installed
    a "fields" frame and a "decode one value" frame and asks for more
    data; the parse is not complete, and the next value on the wire is
    taken as an element of the array. *)
Theorem empty_array_not_completed lim :
  outcome (Run (parserOn lim (B "*0" ++ crlf)))
  = Some (Some ErrShortRead,
          mk [fr parseValue VNil; fr (parseNArrayFields 0) VNil; root (VArray [])]
             {| BulkCaptureLimit := lim |}
             (reader.advance 4 (reader.New (B "*0" ++ crlf))))
  /\ option_map (fun x => (fst x, rootResult (snd x)))
       (outcome (Run (parserOn lim (B "*0" ++ crlf ++ B ":7" ++ crlf))))
     = Some (None, VArray [VInt 7]).
Proof. split; vm_compute; reflexivity. Qed.

Lemma Run_panics p q :
  steps p q -> length (stack q) <> 1 -> outcome (runTop q) = None -> Run p = Panic.
Proof.
  intros Hs Hl Hq. apply steps_Run in Hs.
  rewrite (Run_unfold q) in Hs. apply Nat.eqb_neq in Hl. rewrite Hl in Hs.
  destruct (runTop q) as [e q' w|]; [discriminate|].
  destruct (Run p); [discriminate|reflexivity].
Qed.

(** C4, the code at an array header with a negative count: the closure
    of [startParseArray] asks for a slice of negative capacity, and [Run]
    panics. *)
Theorem negative_array_count_panics lim n :
  inInt n = true -> (n < 0)%Z ->
  Run (parserOn lim (tagArray :: itoa n ++ crlf)) = Panic.
Proof.
  intros Hi Hn.
  apply (Run_panics _ (mk [fr parseArray (VInt n); withResult VNil (root VNil)]
                          {| BulkCaptureLimit := lim |}
                          (reader.advance (S (length (itoa n) + 2))
                             (reader.New (tagArray :: itoa n ++ crlf))))).
  - apply (header_steps _ tagArray parseArray n _ VNil (root VNil) [] []
             eq_refl Hi).
    + rewrite app_nil_r. reflexivity.
    + unfold stackLimit. simpl. lia.
  - simpl. lia.
  - rewrite step_parseArray.
    replace (n <? 0)%Z with true by (symmetry; apply Z.ltb_lt; assumption).
    reflexivity.
Qed.

Lemma negative_array_count_panics_witness :
  Run (parserOn 10 (B "*-1" ++ crlf)) = Panic.
Proof.
  exact (negative_array_count_panics 10 (-1) eq_refl eq_refl).
Defined.

(** ** Chunked delivery *)

(** C2: whatever bytes arrive, and however they are cut into chunks (one
    byte at a time included), the caller's loop -- call [Run], on "need
    more data" feed the next chunk and call [Run] again -- ends with the
    same return value, the same stack and the same source position as one
    [Run] on a source that received all the bytes in a single chunk.  The
    valid encodings are among the byte sequences covered. *)
Theorem chunking_never_changes_output lim :
  (forall cs,
     outcome (deliver cs (parserOn lim []))
     = outcome (Run (parserOn lim (concat cs))))
  /\ (forall input,
        outcome (deliver (oneByOne input) (parserOn lim []))
        = outcome (Run (parserOn lim input))).
Proof.
  assert (H : forall cs, outcome (deliver cs (parserOn lim []))
                         = outcome (Run (parserOn lim (concat cs)))).
  { intros cs. rewrite deliver_Run, parserOn_feed. reflexivity. }
  split; [exact H|].
  intros input. rewrite H, concat_oneByOne. reflexivity.
Qed.

(** Scenario 8: scenario 6 delivered one byte at a time. *)
Example scenario8 :
  outcome (deliver (oneByOne scenario6) (parserOn 10 []))
  = Some (None, finished 10 scenario6 (VArray [VBytes foo; VBytes bar])).
Proof. vm_compute. reflexivity. Qed.

(** ** Bulk strings *)

(** What the closure of [startParseBulk] does with a declared length [n]
    that [startParseInt] left in its frame: nothing more for a negative
    length, the absent bulk being the result; a payload frame for [n]
    bytes when [n] is within the capture limit, which reads the [n] bytes
    once they are there and discards the terminator; and, above the
    limit, the length as the result and [n + 2] bytes discarded, as long
    as [n + 2] is an [int]. *)
Lemma bulk_header_cases o rd parent rest n :
  let lim := BulkCaptureLimit o in
  let p := mk (fr parseBulk (VInt n) :: parent :: rest) o rd in
  ((n < 0)%Z ->
   outcome (runTop p) = Some (None, mk (withResult VNil parent :: rest) o rd))
  /\ ((0 <= n <= lim)%Z ->
      forall b t, reader.avail rd = b ++ t -> size b = n ->
        steps p (mk (withResult (VBytes b) parent :: rest) o
                    (reader.advance (length b + 2) rd)))
  /\ ((lim < n)%Z -> (0 <= n)%Z -> (n + 2 <= maxInt)%Z ->
      outcome (runTop p)
      = Some (None, mk (withResult (VInt n) parent :: rest) o
                       (reader.advance (Z.to_nat n + 2) rd))).
Proof.
  intros lim p. unfold p. split; [|split].
  - intros Hn. rewrite step_parseBulk.
    replace (n <? 0)%Z with true by (symmetry; apply Z.ltb_lt; assumption).
    reflexivity.
  - intros [H0 Hl] b t Ha Hb.
    eapply steps_step; [simpl; lia | | ].
    + rewrite step_parseBulk.
      replace (n <? 0)%Z with false by (symmetry; apply Z.ltb_ge; assumption).
      replace (n <=? BulkCaptureLimit o)%Z with true
        by (symmetry; apply Z.leb_le; assumption).
      reflexivity.
    + apply steps_one; [simpl; lia|].
      rewrite (step_parseBulkN_done o rd _ rest [] n VNil b t Ha).
      * reflexivity.
      * unfold size in Hb. lia.
  - intros Hl H0 Hm. rewrite step_parseBulk.
    replace (n <? 0)%Z with false by (symmetry; apply Z.ltb_ge; assumption).
    replace (n <=? BulkCaptureLimit o)%Z with false
      by (symmetry; apply Z.leb_gt; assumption).
    rewrite wrapInt_id.
    + unfold reader.Discard. replace (Z.to_nat (n + 2)) with (Z.to_nat n + 2) by lia.
      reflexivity.
    + unfold inInt, minInt. apply andb_true_intro. split; apply Z.leb_le; lia.
Qed.

(** C5, the code at a declared length of [maxInt] with capture limit 0:
    the length is accepted and stored as the result, but [result + 2]
    wraps around to a negative count, so [Discard] is not asked for the
    [n + 2] bytes: the source stands right after the 22 bytes of the
    header. *)
Theorem bulk_skip_overflows :
  wrapInt (maxInt + 2) = (-9223372036854775807)%Z
  /\ outcome (Run (parserOn 0 (B "$9223372036854775807" ++ crlf)))
     = Some (None,
             mk [root (VInt maxInt)] {| BulkCaptureLimit := 0 |}
                (reader.advance 22 (reader.New (B "$9223372036854775807" ++ crlf)))).
Proof. split; vm_compute; reflexivity. Qed.

(** ** The [BulkArray] accessor *)

Lemma BulkArray_of_array p top rest l :
  stack p = top :: rest -> result top = VArray l ->
  outcome (BulkArray p) = Some (map entry l, p).
Proof.
  intros Hs Hr. unfold BulkArray, bind, Result, asArray, ret.
  rewrite Hs, Hr. reflexivity.
Qed.

Lemma entry_decoded lim e : entry (decoded lim e) = captured lim e.
Proof.
  destruct e as [s|s|i|b| |l| ]; simpl; try reflexivity.
  destruct (size b <=? lim)%Z; reflexivity.
Qed.

(** C10: on a parser whose result is an array, [BulkArray] returns one
    entry for each element, in order: the bytes of an element that is a
    byte sequence, nil for any other.  Of the values on the wire, only a
    bulk string within the capture limit decodes to a byte sequence: a
    bulk string above the limit (kept as its length) gives nil like an
    absent bulk, and so do a status, an error, an integer and a nested
    array; after a complete parse of an array the entries are those of
    its elements.  On a parser whose result is not an array, [BulkArray]
    panics. *)
Theorem BulkArray_projection lim :
  (forall p top rest l,
     stack p = top :: rest -> result top = VArray l ->
     outcome (BulkArray p) = Some (map entry l, p)
     /\ length (map entry l) = length l)
  /\ (forall e, entry (decoded lim e) = captured lim e)
  /\ (forall l,
        valid (Array l) = true -> populated (Array l) = true ->
        nesting (Array l) + 2 <= stackLimit ->
        exists p',
          outcome (Run (parserOn lim (encode (Array l)))) = Some (None, p')
          /\ outcome (BulkArray p') = Some (map (captured lim) l, p'))
  /\ (forall p top rest,
        stack p = top :: rest ->
        (forall l, result top <> VArray l) ->
        BulkArray p = Panic).
Proof.
  split; [|split; [|split]].
  - intros p top rest l Hs Hr. split; [|apply length_map].
    apply (BulkArray_of_array p top rest l Hs Hr).
  - apply entry_decoded.
  - intros l Hv Hp Hn. eexists. split; [apply Run_decodes; assumption|].
    rewrite (BulkArray_of_array
               (finished lim (encode (Array l)) (decoded lim (Array l)))
               (root (decoded lim (Array l))) [] (map (decoded lim) l)
               eq_refl eq_refl).
    rewrite map_map. do 2 f_equal. apply map_ext. apply entry_decoded.
  - intros p top rest Hs Hr.
    unfold BulkArray, bind, Result, asArray. rewrite Hs.
    destruct (result top) as [| | | | |l] eqn:E; try reflexivity.
    exfalso. apply (Hr l). reflexivity.
Qed.

(** With a capture limit of 3: "foo" is kept; the absent bulk, the six
    bytes of "barbaz" and the integer give nil.  After a parse of an
    integer alone, [BulkArray] panics. *)
Lemma BulkArray_projection_witness :
  (exists p',
     outcome (Run (parserOn 3 (encode (Array threeBulks)))) = Some (None, p')
     /\ outcome (BulkArray p') = Some ([Some foo; None; None; None], p'))
  /\ BulkArray (finished 3 (encode (Integer 7)) (VInt 7)) = Panic.
Proof.
  split.
  - exact (proj1 (proj2 (proj2 (BulkArray_projection 3))) threeBulks eq_refl eq_refl
             (le_S _ _ (le_S _ _ (le_S _ _ (le_S _ _ (le_S _ _ (le_n 3))))))).
  - refine (proj2 (proj2 (proj2 (BulkArray_projection 3)))
              (finished 3 (encode (Integer 7)) (VInt 7)) (root (VInt 7)) [] eq_refl _).
    intros l H. discriminate H.
Defined.

(** ** Short reads of a bulk payload *)

Lemma outcome_inv {A} (x : res A) a p :
  outcome x = Some (a, p) -> exists w, x = Ok a p w.
Proof. destruct x; simpl; intros H; inv H. eauto. Qed.

Lemma app_prefix {A} (a c b t : list A) :
  a ++ c = b ++ t -> length b <= length a -> a = b ++ skipn (length b) a.
Proof.
  intros H Hl.
  assert (Hf : firstn (length b) a = b).
  { assert (H1 : firstn (length b) (a ++ c) = firstn (length b) (b ++ t))
      by (rewrite H; reflexivity).
    rewrite !firstn_app, Nat.sub_diag, firstn_all in H1.
    replace (length b - length a) with 0 in H1 by lia.
    simpl in H1. rewrite !app_nil_r in H1. exact H1. }
  rewrite <- Hf at 1. symmetry. rewrite <- (firstn_skipn (length b) a) at 3.
  rewrite Hf. reflexivity.
Qed.

Lemma resume_bulk cs : forall o rd parent rest accum n x b t,
  reader.pos rd <= length (reader.data rd) ->
  Z.to_nat n = length b ->
  reader.avail rd ++ concat cs = b ++ t ->
  exists rd',
    outcome (resume cs (mk (fr (parseBulkN accum n) x :: parent :: rest) o rd))
    = Some (None, mk (withResult (VBytes (accum ++ b)) parent :: rest) o rd').
Proof.
  induction cs as [|c cs IH]; intros o rd parent rest accum n x b t Hp Hn Ha.
  - rewrite app_nil_r in Ha.
    pose proof (step_parseBulkN_done o rd parent rest accum n x b t Ha Hn) as Hs.
    apply outcome_inv in Hs. destruct Hs as [w Hs].
    simpl. rewrite Hs. eexists. reflexivity.
  - destruct (le_lt_dec (length b) (length (reader.avail rd))) as [Hle|Hlt].
    + pose proof (app_prefix _ _ _ _ Ha Hle) as Hb.
      pose proof (step_parseBulkN_done o rd parent rest accum n x b _ Hb Hn) as Hs.
      apply outcome_inv in Hs. destruct Hs as [w Hs].
      simpl. rewrite Hs. eexists. reflexivity.
    + rewrite <- Hn in Hlt.
      pose proof (step_parseBulkN_short o rd parent rest accum n x Hlt) as Hs.
      apply outcome_inv in Hs. destruct Hs as [w Hs].
      simpl resume. rewrite Hs. rewrite outcome_prepend.
      set (A := reader.avail rd) in *.
      assert (HA : length A = length (reader.data rd) - reader.pos rd)
        by (unfold A, reader.avail; apply length_skipn).
      assert (Hb : b = A ++ skipn (length A) b).
      { symmetry in Ha. apply (app_prefix _ _ _ _ Ha). lia. }
      set (b' := skipn (length A) b) in *.
      assert (Ha2 : c ++ concat cs = b' ++ t).
      { simpl in Ha. rewrite Hb, <- app_assoc in Ha.
        apply app_inv_head in Ha. exact Ha. }
      destruct (IH o (reader.feed c (reader.advance (length A) rd))
                  (withResult VNil parent) rest (accum ++ A)
                  (n - Z.of_nat (length A))%Z VNil b' t) as [rd' Hr].
      * simpl. rewrite length_app. lia.
      * rewrite Hb, length_app in Hn. lia.
      * rewrite avail_feed. simpl.
        change (skipn (reader.pos rd + length A) (reader.data rd))
          with (reader.avail (reader.advance (length A) rd)).
        rewrite avail_advance. fold A. rewrite skipn_all.
        replace (reader.pos rd + length A - length (reader.data rd)) with 0 by lia.
        exact Ha2.
      * exists rd'. unfold feed, setReader, mk in *. simpl r. simpl stack.
        simpl Options. rewrite Hr. rewrite <- app_assoc, <- Hb. reflexivity.
Qed.

(** C6: a payload read that comes back short appends the bytes obtained
    to the accumulator of the frame, discards exactly those bytes from the
    source and reinstalls the frame for the bytes still missing, [Run]
    reporting the short read; and after any sequence of such short reads,
    once the source has received the whole payload, the frame is popped
    with the accumulated bytes followed by the full payload as the
    result. *)
Theorem short_reads_rebuild_payload o rd parent rest accum n x :
  reader.pos rd <= length (reader.data rd) ->
  let p := mk (fr (parseBulkN accum n) x :: parent :: rest) o rd in
  (length (reader.avail rd) < Z.to_nat n ->
   outcome (runTop p)
   = Some (Some ErrShortRead,
           mk (fr (parseBulkN (accum ++ reader.avail rd)
                              (n - Z.of_nat (length (reader.avail rd)))) VNil
               :: withResult VNil parent :: rest) o
              (reader.advance (length (reader.avail rd)) rd)))
  /\ (forall cs b t,
        size b = n ->
        reader.avail rd ++ concat cs = b ++ t ->
        exists rd',
          outcome (resume cs p)
          = Some (None, mk (withResult (VBytes (accum ++ b)) parent :: rest) o rd')).
Proof.
  intros Hp p. split.
  - apply step_parseBulkN_short.
  - intros cs b t Hb Ha. apply (resume_bulk cs o rd parent rest accum n x b t Hp); auto.
    unfold size in Hb. lia.
Qed.

(** "fo", then "o", then the terminator: the first read is short by one
    byte, and the payload is "foo" in the end. *)
Lemma short_reads_rebuild_payload_witness :
  let p := mk [fr (parseBulkN [] 3) VNil; root VNil] {| BulkCaptureLimit := 10 |}
              (reader.New (B "fo")) in
  outcome (runTop p)
  = Some (Some ErrShortRead,
          mk [fr (parseBulkN (B "fo") 1) VNil; root VNil] {| BulkCaptureLimit := 10 |}
             (reader.advance 2 (reader.New (B "fo"))))
  /\ exists rd',
       outcome (resume [B "o"; crlf] p)
       = Some (None, mk [root (VBytes foo)] {| BulkCaptureLimit := 10 |} rd').
Proof.
  pose proof (short_reads_rebuild_payload {| BulkCaptureLimit := 10 |}
                (reader.New (B "fo")) (root VNil) [] [] 3 VNil
                (le_S _ _ (le_S _ _ (le_n 0)))) as [H1 H2].
  split.
  - apply H1. simpl. lia.
  - exact (H2 [B "o"; crlf] foo crlf eq_refl eq_refl).
Defined.

(** ** The recursion ceiling *)

Lemma blocked_here o rd x parent rest :
  S (S (length rest)) = S stackLimit ->
  exists q, steps (mk (fr parseValue x :: parent :: rest) o rd) q /\ blocked o q.
Proof.
  intros H. eexists. split; [apply steps_refl|].
  exists x, parent, rest. repeat split. exact H.
Qed.

Lemma nesting_attained l :
  l <> [] ->
  Exists (fun e => nesting e = pred (nesting (Array l))) l.
Proof.
  simpl. induction l as [|e l IH]; intros Hne; [congruence|]. simpl.
  destruct (Nat.max_spec (nesting e)
              (fold_right (fun e m => Nat.max (nesting e) m) 0 l)) as [[Hlt ->]|[Hle ->]].
  - destruct l as [|e' l']; [simpl in Hlt; lia|].
    apply Exists_cons_tl. apply IH. discriminate.
  - apply Exists_cons_hd. reflexivity.
Qed.

Lemma hitsCeiling_fields o l :
  Forall (hitsCeiling o) l ->
  forallb valid l = true -> forallb populated l = true ->
  forall n acc rd x y pf rest tail,
    n = Z.of_nat (length l) ->
    result pf = VArray acc ->
    reader.avail rd = concat (map encode l) ++ tail ->
    S (S (S (length rest))) <= S stackLimit ->
    Exists (fun e => stackLimit < S (S (S (length rest))) + nesting e) l ->
    exists q,
      steps (mk (fr parseValue x :: fr (parseNArrayFields n) y :: pf :: rest) o rd) q
      /\ blocked o q.
Proof.
  induction 1 as [|e l He Hl IH];
    intros Hv Hp n acc rd x y pf rest tail Hn Hpf Ha Hd Hex; [inversion Hex|].
  simpl in Hv, Hp. apply andb_prop in Hv, Hp.
  destruct Hv as [Hve Hvl], Hp as [Hpe Hpl].
  simpl in Ha. rewrite <- app_assoc in Ha.
  destruct (le_lt_dec (S (S (S (S (length rest))) + nesting e)) (S stackLimit))
    as [Hfit|Hdeep].
  - inversion Hex as [? ? Hbad|? ? Hex']; subst; [lia|].
    destruct l as [|e' l']; [inversion Hex'|].
    pose proof (decodes_value o e Hve Hpe rd x
                  (fr (parseNArrayFields (Z.of_nat (length (e :: e' :: l')))) y)
                  (pf :: rest) _ Ha) as Hs.
    rewrite withResult_fr in Hs.
    destruct (IH Hvl Hpl (Z.of_nat (length (e' :: l'))) (acc ++ [decoded (BulkCaptureLimit o) e])
                (reader.advance (length (encode e)) rd) VNil VNil
                (withResult (VArray (acc ++ [decoded (BulkCaptureLimit o) e])) pf)
                rest tail eq_refl eq_refl (avail_after _ _ _ Ha) Hd Hex')
      as (q & Hq & Hb).
    exists q. split; [|exact Hb].
    eapply steps_trans; [apply Hs; simpl; lia|].
    eapply steps_step; [simpl; lia | | exact Hq].
    rewrite (step_parseNArrayFields o _ pf rest _ _ acc Hpf).
    replace (1 <? Z.of_nat (length (e :: e' :: l')))%Z with true
      by (symmetry; apply Z.ltb_lt; simpl length; lia).
    cbv iota.
    replace (Z.of_nat (length (e :: e' :: l')) - 1)%Z
      with (Z.of_nat (length (e' :: l'))) by (simpl length; lia).
    reflexivity.
  - apply (He rd x _ (pf :: rest) _ Ha); simpl; lia.
Qed.

Lemma hitsCeiling_value o v :
  valid v = true -> populated v = true -> hitsCeiling o v.
Proof.
  induction v as [s|s|i|b| |l IH| ] using resp_ind'; intros Hv Hp;
    try (intros rd x parent rest tail Ha Hd Hn; simpl in Hn;
         apply blocked_here; lia).
  intros rd x parent rest tail Ha Hd Hn.
  destruct (Nat.eq_dec (S (S (length rest))) (S stackLimit)) as [Heq|Hneq];
    [apply blocked_here; exact Heq|].
  simpl in Hv, Hp. apply andb_prop in Hv, Hp.
  destruct Hv as [Hlen Hv], Hp as [Hne Hp].
  apply Z.leb_le in Hlen.
  assert (Hl : l <> []) by (intros ->; discriminate).
  set (n := Z.of_nat (length l)) in *.
  assert (Hi : inInt n = true).
  { unfold inInt, minInt, n in *. apply andb_true_intro.
    split; apply Z.leb_le; lia. }
  assert (Ha' : reader.avail rd
                = tagArray :: itoa n ++ crlf ++ (concat (map encode l) ++ tail)).
  { rewrite Ha. repeat (simpl; rewrite <- ?app_assoc). reflexivity. }
  pose proof (header_avail _ _ _ _ Ha') as Hav.
  assert (Hall : Forall (hitsCeiling o) l).
  { rewrite forallb_forall in Hv, Hp. rewrite Forall_forall in *.
    intros e He. apply IH; auto. }
  destruct (hitsCeiling_fields o l Hall Hv Hp n [] _ VNil VNil
              (withResult (VArray []) (withResult VNil parent)) rest tail
              eq_refl eq_refl Hav) as (q & Hq & Hb).
  - lia.
  - pose proof (nesting_attained l Hl) as Hex.
    eapply Exists_impl; [|exact Hex]. intros e He. simpl in Hn, He |- *.
    rewrite He. simpl. lia.
  - exists q. split; [|exact Hb].
    eapply steps_trans.
    { apply (header_steps o tagArray parseArray n rd x parent rest _ eq_refl Hi Ha').
      lia. }
    eapply steps_step; [simpl; lia | | exact Hq].
    rewrite step_parseArray.
    replace (n <? 0)%Z with false by (symmetry; apply Z.ltb_ge; unfold n; lia).
    reflexivity.
Qed.

Lemma blocked_Run o q more :
  blocked o q ->
  Run (feed more q) = Ok (Some RecursionLimitErr) (feed more q) [].
Proof.
  intros (x & parent & rest & Hs & Hl & Ho).
  destruct q as [st o' rd]. simpl in *. subst st o'.
  change (feed more {| stack := fr parseValue x :: parent :: rest;
                       Options := o; r := rd |})
    with (mk (fr parseValue x :: parent :: rest) o (reader.feed more rd)).
  rewrite Run_unfold.
  rewrite (step_parseValue_deep o (reader.feed more rd) parent rest x)
    by (unfold stackLimit in *; simpl in Hl; lia).
  unfold mk at 1. simpl stack.
  replace (length (fr parseValue x :: parent :: rest) =? 1) with false
    by (symmetry; apply Nat.eqb_neq; simpl; lia).
  reflexivity.
Qed.

(** X16: on valid encodings in which no array is empty or absent, the
    ceiling is on the depth of the stack, [stackLimit] frames with the
    root and the frame of the value, which is six arrays around a value.
    A value nested within the ceiling is decoded, however its encoding is
    cut into chunks.  For a value nested beyond it, however
    the encoding is cut into chunks, [Run] fails with the recursion-limit
    error when the "decode one value" frame that would exceed the ceiling
    comes to run, before that frame reads anything; the frame stays on
    the stack, so whatever bytes are supplied afterwards, [Run] fails
    again with the same error. *)
Theorem recursion_ceiling lim v :
  valid v = true -> populated v = true ->
  (nesting v + 2 <= stackLimit ->
   forall cs, concat cs = encode v ->
     outcome (deliver cs (parserOn lim []))
     = Some (None, finished lim (encode v) (decoded lim v)))
  /\ (stackLimit < nesting v + 2 ->
      forall cs tail, concat cs = encode v ++ tail ->
      exists p',
        outcome (deliver cs (parserOn lim [])) = Some (Some RecursionLimitErr, p')
        /\ blocked {| BulkCaptureLimit := lim |} p'
        /\ forall more,
             Run (feed more p') = Ok (Some RecursionLimitErr) (feed more p') []).
Proof.
  intros Hv Hp. split.
  - intros Hn cs Hcs.
    rewrite deliver_Run, parserOn_feed, Hcs. apply Run_decodes; assumption.
  - intros Hn cs tail Hcs.
    destruct (hitsCeiling_value {| BulkCaptureLimit := lim |} v Hv Hp
                (reader.New (encode v ++ tail)) VNil (root VNil) [] tail)
      as (q & Hq & Hb).
    + reflexivity.
    + unfold stackLimit. simpl. lia.
    + simpl. lia.
    + exists q. split; [|split].
      * rewrite deliver_Run, parserOn_feed, Hcs.
        change (parserOn lim (encode v ++ tail))
          with (mk [fr parseValue VNil; root VNil] {| BulkCaptureLimit := lim |}
                   (reader.New (encode v ++ tail))).
        rewrite (steps_Run _ _ Hq).
        rewrite <- (feed_nil q) at 1. rewrite (blocked_Run _ _ [] Hb), feed_nil.
        reflexivity.
      * exact Hb.
      * intros more. apply (blocked_Run _ _ more Hb).
Qed.

(** Six arrays around an integer, one byte at a time: decoded.  Seven
    arrays, one byte at a time: the recursion-limit error, for good. *)
Lemma recursion_ceiling_witness :
  outcome (deliver (oneByOne (encode (nest 6 (Integer 5)))) (parserOn 10 []))
  = Some (None, finished 10 (encode (nest 6 (Integer 5)))
                  (decoded 10 (nest 6 (Integer 5))))
  /\ exists p',
       outcome (deliver (oneByOne (encode (nest 7 (Integer 5)))) (parserOn 10 []))
       = Some (Some RecursionLimitErr, p')
       /\ blocked {| BulkCaptureLimit := 10 |} p'
       /\ forall more,
            Run (feed more p') = Ok (Some RecursionLimitErr) (feed more p') [].
Proof.
  split.
  - apply (proj1 (recursion_ceiling 10 (nest 6 (Integer 5)) eq_refl eq_refl)).
    + unfold stackLimit. simpl. lia.
    + apply concat_oneByOne.
  - apply (proj2 (recursion_ceiling 10 (nest 7 (Integer 5)) eq_refl eq_refl)
             ltac:(unfold stackLimit; simpl; lia)
             (oneByOne (encode (nest 7 (Integer 5)))) []).
    rewrite app_nil_r. apply concat_oneByOne.
Defined.

(** C7, the code at [*1 *1 *1 *1 *2 *0 *1 :1] (each header and the
    integer followed by CR LF), a valid encoding six arrays deep: the
    array after [*0\r\n] is taken as the element of the empty array, one
    frame deeper than the encoding nests, and [Run] fails with the
    recursion-limit error although the nesting is within the ceiling.
    And at [*2 *-1] followed by six arrays around an integer, nested one
    level beyond the ceiling: [Run] does not fail with the recursion-limit
    error, it panics at the absent array. *)
Theorem ceiling_broken_by_empty_arrays lim :
  let v := nest 4 (Array [Array []; Array [Integer 1]]) in
  let u := Array [NullArray; nest 6 (Integer 5)] in
  (valid v = true
   /\ nesting v + 2 <= stackLimit
   /\ option_map fst (outcome (Run (parserOn lim (encode v))))
      = Some (Some RecursionLimitErr))
  /\ (valid u = true
      /\ stackLimit < nesting u + 2
      /\ Run (parserOn lim (encode u)) = Panic).
Proof.
  split; (split; [reflexivity|]); (split; [unfold stackLimit; simpl; lia|]);
    vm_compute; reflexivity.
Qed.

(** ** Writes to result slots *)

(** The writes of the parse of [+OK\r\n]: the root slot is written by the
    pop of the "decode one value" frame, with nil, and again by the pop
    of the line frame. *)
Example writes_of_status :
  writes (Run (parserOn 10 (B "+OK" ++ crlf)))
  = [WPop 0 VNil; WPop 0 (VString (B "OK"))].
Proof. vm_compute. reflexivity. Qed.

(** The writes of the parse of [*2\r\n:1\r\n:2\r\n]: the root slot is
    written by pops and by the assignment of [startParseArray]. *)
Example writes_of_array :
  filter (fun w => slotOf w =? 0)
    (writes (Run (parserOn 10 (B "*2" ++ crlf ++ B ":1" ++ crlf ++ B ":2" ++ crlf))))
  = [WPop 0 VNil; WPop 0 VNil; WAssign 0 (VArray []);
     WPop 0 (VArray [VInt 1]); WPop 0 (VArray [VInt 1; VInt 2])].
Proof. vm_compute. reflexivity. Qed.

(** C8, counterexample: in the parse of [+OK\r\n] the slot of the root
    frame is written twice. *)
Lemma write_once_counterexample : ~ slots_written_once_by_pop.
Proof.
  intros H. destruct (H 10%Z (B "+OK" ++ crlf) 0) as [H1 _].
  vm_compute in H1. lia.
Qed.

(** C8, as amended: whatever a frame writes when it runs, it writes into
    the result slot of the frame immediately below it -- by its pop, or,
    in the closure of [startParseArray] only, by the assignment of the
    empty sequence that follows the pop; the frames further down are left
    as they are and the frame below keeps its action.  (A slot may be
    written more than once in a parse.) *)
Theorem writes_go_to_the_frame_below p e p' ws :
  runTop p = Ok e p' ws ->
  Forall (fun w => S (S (slotOf w)) = length (stack p)) ws
  /\ (forall top parent rest,
        stack p = top :: parent :: rest ->
        exists pushed parent',
          stack p' = pushed ++ parent' :: rest /\ run parent' = run parent)
  /\ (forall s v, In (WAssign s v) ws ->
        exists n rest, stack p = fr parseArray (VInt n) :: rest /\ v = VArray []).
Proof.
  unfold runTop. destruct p as [st o rd]; simpl.
  destruct st as [|[[a|] x] st]; try discriminate.
  destruct st as [|[pa pv] st];
    destruct a; unfold_parser; simpl; intros H; split_body H.
  all: inv H; simpl.
  all: split; [repeat constructor|split].
  all: try (intros top parent rest Hs; inv Hs;
            first [ refine (ex_intro _ [] (ex_intro _ _ (conj eq_refl eq_refl)))
                  | refine (ex_intro _ [_] (ex_intro _ _ (conj eq_refl eq_refl)))
                  | refine (ex_intro _ [_; _] (ex_intro _ _ (conj eq_refl eq_refl))) ]).
  all: try (intros s v Hin; simpl in Hin;
            repeat destruct Hin as [Hin|Hin]; try discriminate Hin;
            try contradiction).
  inv Hin. do 2 eexists. split; reflexivity.
Qed.

(** The closure of [startParseArray] on a count of 2, above the root:
    its pop and its assignment both write slot 0. *)
Lemma writes_go_to_the_frame_below_witness :
  let p := mk [fr parseArray (VInt 2); root VNil] {| BulkCaptureLimit := 10 |}
              (reader.New []) in
  let ws := [WPop 0 VNil; WAssign 0 (VArray [])] in
  Forall (fun w => S (S (slotOf w)) = length (stack p)) ws
  /\ (forall top parent rest,
        stack p = top :: parent :: rest ->
        exists pushed parent',
          [fr parseValue VNil; fr (parseNArrayFields 2) VNil; root (VArray [])]
          = pushed ++ parent' :: rest /\ run parent' = run parent)
  /\ (forall s v, In (WAssign s v) ws ->
        exists n rest, stack p = fr parseArray (VInt n) :: rest /\ v = VArray []).
Proof.
  exact (writes_go_to_the_frame_below
           (mk [fr parseArray (VInt 2); root VNil] {| BulkCaptureLimit := 10 |}
               (reader.New []))
           None
           (mk [fr parseValue VNil; fr (parseNArrayFields 2) VNil; root (VArray [])]
               {| BulkCaptureLimit := 10 |} (reader.New []))
           [WPop 0 VNil; WAssign 0 (VArray [])] eq_refl).
Defined.

(** ** Protocol violations *)

(** C9, counterexample: on [:abc\r\n], [Run] returns the error of
    [strconv.Atoi], which is not [ProtocolErr]. *)
Lemma protocol_error_counterexample : ~ non_numeric_line_is_ProtocolErr.
Proof.
  intros H. specialize (H 10%Z (B "abc") eq_refl eq_refl).
  vm_compute in H. discriminate H.
Qed.

Example abc_is_a_NumError :
  option_map fst (outcome (Run (parserOn 10 (B ":abc" ++ crlf))))
  = Some (Some (NumError ErrSyntax)).
Proof. vm_compute. reflexivity. Qed.

Lemma ReadN_one rd c out rd' :
  reader.ReadN 1 rd = (c :: out, None, rd') ->
  exists t, reader.avail rd = c :: t.
Proof.
  unfold reader.ReadN. change (Z.to_nat 1) with 1.
  destruct (reader.avail rd) as [|c' t]; simpl; intros H; inv H. eauto.
Qed.

Lemma runTop_ProtocolErr p p' w :
  runTop p = Ok (Some ProtocolErr) p' w -> badTag p.
Proof.
  unfold runTop. destruct p as [st o rd]; simpl.
  destruct st as [|[[a|] x] st]; try discriminate.
  destruct st as [|[pa pv] st];
    destruct a; unfold_parser; simpl; intros H; split_body H.
  all: inv H; short_reads; try discriminate.
  match goal with
  | E : reader.ReadN 1 _ = _ |- _ => apply ReadN_one in E; destruct E as [t Ht]
  end.
  exists x, {| run := pa; result := pv |}, st. do 2 eexists.
  repeat split.
  - simpl. apply Nat.ltb_ge. assumption.
  - simpl. exact Ht.
  - unfold handlers. repeat match goal with E : Byte.eqb _ _ = false |- _ =>
      rewrite E; clear E end. reflexivity.
Qed.

Lemma Run_fails_at : forall p e p' w,
  Run p = Ok (Some e) p' w ->
  exists q w', steps p q /\ length (stack q) <> 1 /\ runTop q = Ok (Some e) p' w'.
Proof.
  intros p. remember (measure p) as m eqn:Hm. revert p Hm.
  induction m as [m IH] using lt_wf_ind. intros p Hm e p' w.
  rewrite Run_unfold.
  destruct (length (stack p) =? 1) eqn:Hl; [discriminate|].
  apply Nat.eqb_neq in Hl.
  destruct (runTop p) as [[e1|] p1 w1|] eqn:E; try discriminate.
  - intros H; inv H. exists p, w. split; [apply steps_refl|]. auto.
  - intros H. pose proof (measure_decreases _ _ _ E) as Hd.
    destruct (Run p1) as [a p2 w2|] eqn:E1; [|discriminate]. simpl in H. inv H.
    destruct (IH (measure p1) Hd p1 eq_refl _ _ _ E1) as (q & w' & Hs & Hq).
    exists q, w'. split; [|exact Hq].
    eapply steps_step; [exact Hl | rewrite E; reflexivity | exact Hs].
Qed.

(** C9, as amended: [Run] fails with [ProtocolErr] exactly when it comes
    to a "decode one value" frame that reads a byte which is none of the
    five tags; a frame that reads an integer or length line which
    [strconv.Atoi] rejects makes [Run] fail with the error of [Atoi]
    instead, which is neither [ProtocolErr] nor the need-more-data
    error. *)
Theorem ProtocolErr_exactly_on_bad_tag p :
  ((exists p' w, Run p = Ok (Some ProtocolErr) p' w)
   <-> exists q, steps p q /\ badTag q)
  /\ (forall x parent rest s t e,
        stack p = fr parseInt x :: parent :: rest ->
        reader.avail (r p) = s ++ crlf ++ t ->
        noLF s = true ->
        Atoi s = inr e ->
        exists p' w,
          Run p = Ok (Some (NumError e)) p' w
          /\ NumError e <> ProtocolErr /\ NumError e <> ErrShortRead).
Proof.
  split; [split|].
  - intros (p' & w & H).
    destruct (Run_fails_at _ _ _ _ H) as (q & w' & Hs & _ & Hq).
    exists q. split; [exact Hs|]. exact (runTop_ProtocolErr _ _ _ Hq).
  - intros (q & Hs & (x & parent & rest & c & t & Hst & Hl & Ha & Hh)).
    apply steps_Run in Hs. destruct q as [st o rd]. simpl in *. subst st.
    rewrite (Run_unfold {| stack := _; Options := o; r := rd |}) in Hs.
    simpl stack in Hs.
    replace (length (fr parseValue x :: parent :: rest) =? 1) with false in Hs
      by (symmetry; apply Nat.eqb_neq; simpl; lia).
    pose proof (step_parseValue o rd parent rest x c t Ha Hl) as Hv.
    rewrite Hh in Hv. unfold mk in Hv.
    destruct (runTop _) as [[e|] q' w'|]; simpl in Hv; inv Hv.
    simpl in Hs. apply outcome_inv in Hs. destruct Hs as [w Hs]. eauto.
  - intros x parent rest s t e Hst Ha Hs He.
    destruct p as [st o rd]. simpl in *. subst st.
    pose proof (step_parseInt o rd parent rest x s t Ha Hs) as Hi.
    rewrite He in Hi. unfold mk in Hi.
    rewrite Run_unfold. simpl stack.
    replace (length (fr parseInt x :: parent :: rest) =? 1) with false
      by (symmetry; apply Nat.eqb_neq; simpl; lia).
    destruct (runTop _) as [[e'|] q' w'|]; simpl in Hi; inv Hi.
    do 2 eexists. split; [reflexivity|]. split; discriminate.
Qed.

(** A byte that is no tag; a line that is no number. *)
Lemma ProtocolErr_exactly_on_bad_tag_witness :
  (exists p' w, Run (parserOn 10 (B "?" ++ crlf)) = Ok (Some ProtocolErr) p' w)
  /\ (exists p' w,
        Run (mk [fr parseInt VNil; root VNil] {| BulkCaptureLimit := 10 |}
                (reader.New (B "abc" ++ crlf)))
        = Ok (Some (NumError ErrSyntax)) p' w
        /\ NumError ErrSyntax <> ProtocolErr /\ NumError ErrSyntax <> ErrShortRead).
Proof.
  split.
  - apply (proj2 (proj1 (ProtocolErr_exactly_on_bad_tag (parserOn 10 (B "?" ++ crlf))))).
    exists (parserOn 10 (B "?" ++ crlf)). split; [apply steps_refl|].
    exists VNil, (root VNil), [], x3f, crlf.
    repeat split. unfold stackLimit. simpl. lia.
  - exact (proj2 (ProtocolErr_exactly_on_bad_tag
                    (mk [fr parseInt VNil; root VNil] {| BulkCaptureLimit := 10 |}
                        (reader.New (B "abc" ++ crlf))))
             VNil (root VNil) [] (B "abc") [] ErrSyntax
             eq_refl eq_refl eq_refl eq_refl).
Defined.


(** * Further properties of the decoder *)

(** ** The shape of the stack *)

Lemma waitingOn_fields a below :
  waitingOn (Some a) below = true -> exists n, a = parseNArrayFields n.
Proof.
  destruct below as [|pf below]; [discriminate|].
  destruct a; simpl; try discriminate. eauto.
Qed.

Lemma waitingOn_root below : waitingOn None below = true -> below = [].
Proof. destruct below; [reflexivity|discriminate]. Qed.

Ltac finish_shape :=
  unfold wellFormed, waiting in *; simpl in *; unfold stackLimit in *;
  repeat (match goal with
          | H : false = true |- _ => discriminate H
          | H : waitingOn (Some ?a) ?st = true |- _ =>
              lazymatch a with
              | parseNArrayFields _ =>
                  is_var st; destruct st as [|[? ?] ?]; simpl in H;
                  [discriminate H|]
              | _ => apply waitingOn_fields in H; destruct H as [? H];
                     discriminate H
              end
          | H : waitingOn None ?st = true |- _ =>
              is_var st; apply waitingOn_root in H; subst st
          | H : _ && _ = true |- _ => apply andb_prop in H; destruct H
          | H : context [match ?x with _ => _ end] |- _ => is_var x; destruct x
          | |- context [match ?x with _ => _ end] => is_var x; destruct x
          | H : context [match run ?f with _ => _ end] |- _ =>
              is_var f; destruct f as [[[]|] ?]
          end; simpl in *);
  rewrite ?andb_true_iff, ?Nat.leb_le, ?Nat.ltb_lt, ?Nat.ltb_ge in *;
  try solve [intuition (try discriminate; try lia)].

Lemma wellFormed_runTop p e p' w :
  wellFormed (stack p) = true ->
  runTop p = Ok e p' w ->
  wellFormed (stack p') = true.
Proof.
  unfold runTop. destruct p as [st o rd]; simpl.
  destruct st as [|[[a|] v] st]; try discriminate.
  destruct st as [|[pa pv] st];
    destruct a; unfold_parser; simpl; intros Hwf H; split_body H.
  all: inv H; finish_shape.
Qed.

Lemma wellFormed_panic p :
  wellFormed (stack p) = true -> length (stack p) <> 1 ->
  runTop p = Panic -> negativeCount p.
Proof.
  unfold runTop, negativeCount. destruct p as [st o rd]; simpl.
  destruct st as [|[[a|] v] st]; try discriminate.
  - destruct st as [|[pa pv] st];
      destruct a; unfold_parser; simpl; intros Hwf Hl H; split_body H.
    all: try solve [finish_shape].
    all: short_reads; try solve [finish_shape].
    + apply ReadN_length in E0. discriminate E0.
    + exists i, ({| run := pa; result := pv |} :: st). split; [reflexivity|].
      apply Z.ltb_lt. assumption.
  - intros Hwf Hl _. exfalso. finish_shape.
Qed.

Lemma wellFormed_depth st :
  wellFormed st = true -> 1 <= length st <= S stackLimit.
Proof.
  destruct st as [|[[a|] v] st]; [discriminate| |].
  - destruct a; intros H; finish_shape.
  - intros H; finish_shape.
Qed.

Lemma wellFormed_steps p q :
  steps p q -> wellFormed (stack p) = true -> wellFormed (stack q) = true.
Proof.
  induction 1 as [|p p1 p2 Hl Hs _ IH]; intros Hwf; [assumption|].
  apply outcome_inv in Hs. destruct Hs as [w Hs].
  apply IH. exact (wellFormed_runTop _ _ _ _ Hwf Hs).
Qed.

Lemma wellFormed_Run : forall p e p' w,
  wellFormed (stack p) = true -> Run p = Ok e p' w ->
  wellFormed (stack p') = true.
Proof.
  intros p. remember (measure p) as m eqn:Hm. revert p Hm.
  induction m as [m IH] using lt_wf_ind. intros p Hm e p' w Hwf.
  rewrite Run_unfold.
  destruct (length (stack p) =? 1); [intros H; inv H; assumption|].
  destruct (runTop p) as [[e1|] p1 w1|] eqn:E; try discriminate.
  - intros H; inv H. exact (wellFormed_runTop _ _ _ _ Hwf E).
  - pose proof (measure_decreases _ _ _ E) as Hd.
    destruct (Run p1) as [a p2 w2|] eqn:E1; [|discriminate].
    simpl. intros H; inv H.
    apply (IH (measure p1) Hd p1 eq_refl _ _ _ (wellFormed_runTop _ _ _ _ Hwf E) E1).
Qed.





Lemma wellFormed_deliver cs : forall p e p' w,
  wellFormed (stack p) = true -> deliver cs p = Ok e p' w ->
  wellFormed (stack p') = true.
Proof.
  induction cs as [|c cs IH]; intros p e p' w Hwf; simpl.
  - destruct (Run p) as [[[| | |[]]|] p1 w1|] eqn:E; intros H; inv H;
      apply (wellFormed_Run _ _ _ _ Hwf E).
  - destruct (Run p) as [[[| | |[]]|] p1 w1|] eqn:E; intros H; try discriminate;
      pose proof (wellFormed_Run _ _ _ _ Hwf E) as H1.
    + destruct (deliver cs (feed c p1)) as [e2 p2 w2|] eqn:E2; [|discriminate].
      simpl in H. inv H. apply (IH (feed c p1) _ _ _ H1 E2).
    + inv H. exact H1.
    + inv H. exact H1.
    + inv H. exact H1.
    + inv H. exact H1.
    + inv H. exact H1.
Qed.

(** ** Panics *)

Lemma runTopIn_ok room p e p' w :
  runTopIn room p = Ok e p' w -> refused room p = false /\ runTop p = Ok e p' w.
Proof.
  unfold runTopIn. destruct (refused room p); [discriminate|]. auto.
Qed.

Lemma RunIn_fuel_enough room fuel : forall p,
  measure p < fuel -> exists x, RunIn_fuel room fuel p = Some x.
Proof.
  induction fuel as [|fuel IH]; intros p Hm; [lia|].
  simpl. destruct (length (stack p) =? 1); [eauto|].
  destruct (runTopIn room p) as [[e|] p' w|] eqn:E; eauto.
  apply runTopIn_ok in E. destruct E as [_ E]. apply measure_decreases in E.
  destruct (IH p') as [x Hx]; [lia|]. rewrite Hx. simpl. eauto.
Qed.

Lemma RunIn_fuel_stable room fuel : forall p x fuel',
  RunIn_fuel room fuel p = Some x -> fuel <= fuel' ->
  RunIn_fuel room fuel' p = Some x.
Proof.
  induction fuel as [|fuel IH]; intros p x fuel' H Hle; [discriminate|].
  destruct fuel' as [|fuel']; [lia|]. simpl in *.
  destruct (length (stack p) =? 1); [assumption|].
  destruct (runTopIn room p) as [[e|] p' w|]; try assumption.
  destruct (RunIn_fuel room fuel p') as [y|] eqn:E; [|discriminate].
  rewrite (IH p' y fuel' E); [assumption | lia].
Qed.

Lemma RunIn_fuel_RunIn room fuel p :
  measure p < fuel -> RunIn_fuel room fuel p = Some (RunIn room p).
Proof.
  intros Hm. unfold RunIn.
  destruct (RunIn_fuel_enough room (S (measure p)) p (Nat.lt_succ_diag_r (measure p)))
    as [x Hx].
  rewrite Hx. apply RunIn_fuel_stable with (fuel := S (measure p)); [assumption | lia].
Qed.

Lemma RunIn_unfold room p :
  RunIn room p =
  if length (stack p) =? 1 then Ok None p []
  else match runTopIn room p with
       | Ok None p' w => prepend w (RunIn room p')
       | Ok (Some err) p' w => Ok (Some err) p' w
       | Panic => Panic
       end.
Proof.
  pose proof (RunIn_fuel_RunIn room (S (measure p)) p (Nat.lt_succ_diag_r (measure p)))
    as H.
  simpl in H. destruct (length (stack p) =? 1); [congruence|].
  destruct (runTopIn room p) as [[e|] p' w|] eqn:E; try congruence.
  apply runTopIn_ok in E. destruct E as [_ E]. apply measure_decreases in E.
  rewrite (RunIn_fuel_RunIn room (measure p) p') in H by lia.
  simpl in H. congruence.
Qed.

Lemma refused_depth room q :
  wellFormed (stack q) = true -> refused room q = true -> length (stack q) <> 1.
Proof.
  destruct q as [st o rd]. unfold refused, asked. simpl.
  destruct st as [|[[a|] v] [|g below]]; simpl; try discriminate.
  destruct a, v; simpl; discriminate.
Qed.

Lemma negativeCount_refused room q : negativeCount q -> refused room q = true.
Proof.
  intros (n & rest & Hst & Hn). unfold refused, asked. rewrite Hst. simpl.
  apply Z.ltb_lt in Hn. rewrite Hn. reflexivity.
Qed.

Lemma RunIn_panics room p q :
  steps p q -> wellFormed (stack p) = true -> refused room q = true ->
  RunIn room p = Panic.
Proof.
  induction 1 as [p|p p1 p2 Hl Hs _ IH]; intros Hwf Hr; rewrite RunIn_unfold.
  - pose proof (refused_depth room p Hwf Hr) as Hl.
    apply Nat.eqb_neq in Hl. rewrite Hl. unfold runTopIn. rewrite Hr. reflexivity.
  - apply Nat.eqb_neq in Hl. rewrite Hl. unfold runTopIn.
    destruct (refused room p); [reflexivity|].
    apply outcome_inv in Hs. destruct Hs as [w Hs]. rewrite Hs.
    rewrite (IH (wellFormed_runTop _ _ _ _ Hwf Hs) Hr). reflexivity.
Qed.

Lemma RunIn_panics_at room : forall p,
  wellFormed (stack p) = true -> RunIn room p = Panic ->
  exists q, steps p q /\ refused room q = true.
Proof.
  intros p. remember (measure p) as m eqn:Hm. revert p Hm.
  induction m as [m IH] using lt_wf_ind. intros p Hm Hwf.
  rewrite RunIn_unfold.
  destruct (length (stack p) =? 1) eqn:Hl; [discriminate|].
  apply Nat.eqb_neq in Hl. unfold runTopIn.
  destruct (refused room p) eqn:Hr.
  - intros _. exists p. split; [apply steps_refl | exact Hr].
  - destruct (runTop p) as [[e|] p1 w1|] eqn:E; try discriminate.
    + intros H. pose proof (measure_decreases _ _ _ E) as Hd. subst m.
      destruct (RunIn room p1) eqn:E1; [discriminate|].
      destruct (IH (measure p1) Hd p1 eq_refl (wellFormed_runTop _ _ _ _ Hwf E) E1)
        as (q & Hs & Hq).
      exists q. split; [|exact Hq].
      eapply steps_step; [exact Hl | rewrite E; reflexivity | exact Hs].
    + intros _. pose proof (wellFormed_panic p Hwf Hl E) as Hn.
      rewrite (negativeCount_refused room p Hn) in Hr. discriminate Hr.
Qed.

Lemma RunIn_Run room : forall p e p' w,
  RunIn room p = Ok e p' w -> Run p = Ok e p' w.
Proof.
  intros p. remember (measure p) as m eqn:Hm. revert p Hm.
  induction m as [m IH] using lt_wf_ind. intros p Hm e p' w.
  rewrite RunIn_unfold, Run_unfold.
  destruct (length (stack p) =? 1); [auto|]. unfold runTopIn.
  destruct (refused room p); [discriminate|].
  destruct (runTop p) as [[e1|] p1 w1|] eqn:E; auto.
  pose proof (measure_decreases _ _ _ E) as Hd. subst m.
  destruct (RunIn room p1) as [a p2 w2|] eqn:E1; [|discriminate].
  rewrite (IH (measure p1) Hd p1 eq_refl _ _ _ E1). auto.
Qed.

(** X1: on a parser whose stack has the shape that [NewParser], [Reset]
    and [Run] give it, whatever the bytes are, no type assertion, stack
    index or slice expression of the decoder fails: [Run] ends abnormally
    exactly when it comes to a closure whose [make] is refused, that of
    [startParseArray] with a negative count or one that takes more memory
    than the allocator serves, or that of [startParseBulk] with a length
    within the capture limit that takes more.  When [Run] returns, it
    returns what it returns where no capacity is refused, and leaves the
    stack in that shape for the next call. *)
Theorem Run_fails_only_in_make room p :
  wellFormed (stack p) = true ->
  (RunIn room p = Panic <-> exists q, steps p q /\ refused room q = true)
  /\ (forall e p' w,
        RunIn room p = Ok e p' w ->
        Run p = Ok e p' w /\ wellFormed (stack p') = true).
Proof.
  intros Hwf. split; [split|].
  - apply RunIn_panics_at. exact Hwf.
  - intros (q & Hs & Hr). exact (RunIn_panics room p q Hs Hwf Hr).
  - intros e p' w H. apply RunIn_Run in H. split; [exact H|].
    exact (wellFormed_Run _ _ _ _ Hwf H).
Qed.

(** An array of a hundred elements inside an array, where the
    allocator serves a thousand bytes. *)
Lemma Run_fails_only_in_make_witness :
  let p := parserOn 10 (B "*1" ++ crlf ++ B "*100" ++ crlf) in
  (RunIn 1000 p = Panic <-> exists q, steps p q /\ refused 1000 q = true)
  /\ (forall e p' w,
        RunIn 1000 p = Ok e p' w ->
        Run p = Ok e p' w /\ wellFormed (stack p') = true).
Proof.
  exact (Run_fails_only_in_make 1000
           (parserOn 10 (B "*1" ++ crlf ++ B "*100" ++ crlf)) eq_refl).
Defined.

(** ** The depth of the stack *)

(** X2: from a well-formed parser, whatever the input, the stack never
    holds more than [stackLimit + 1] frames: not in any state that the
    loop of [Run] goes through, and not in the state that the caller's
    loop returns, which is well-formed again. *)
Theorem stack_depth_bounded p :
  wellFormed (stack p) = true ->
  (forall q, steps p q -> 1 <= length (stack q) <= S stackLimit)
  /\ (forall cs e p' w,
        deliver cs p = Ok e p' w ->
        wellFormed (stack p') = true /\ 1 <= length (stack p') <= S stackLimit).
Proof.
  intros Hwf. split.
  - intros q Hs. apply wellFormed_depth. apply (wellFormed_steps _ _ Hs Hwf).
  - intros cs e p' w H. pose proof (wellFormed_deliver cs _ _ _ _ Hwf H) as H1.
    split; [exact H1|]. apply wellFormed_depth. exact H1.
Qed.

Lemma stack_depth_bounded_witness :
  (forall q, steps (parserOn 10 (encode (nest 7 (Integer 5)))) q ->
             1 <= length (stack q) <= S stackLimit)
  /\ (forall cs e p' w,
        deliver cs (parserOn 10 (encode (nest 7 (Integer 5)))) = Ok e p' w ->
        wellFormed (stack p') = true /\ 1 <= length (stack p') <= S stackLimit).
Proof.
  exact (stack_depth_bounded (parserOn 10 (encode (nest 7 (Integer 5)))) eq_refl).
Defined.

(** ** [Reset] and the reuse of a parser *)







(** ** Calling [Run] again *)

Lemma Run_nil_depth : forall p p' w,
  Run p = Ok None p' w -> length (stack p') = 1.
Proof.
  intros p. remember (measure p) as m eqn:Hm. revert p Hm.
  induction m as [m IH] using lt_wf_ind. intros p Hm p' w.
  rewrite Run_unfold.
  destruct (length (stack p) =? 1) eqn:Hl.
  - intros H; inv H. apply Nat.eqb_eq. assumption.
  - destruct (runTop p) as [[e1|] p1 w1|] eqn:E; try discriminate.
    intros H. pose proof (measure_decreases _ _ _ E) as Hd.
    destruct (Run p1) as [a p2 w2|] eqn:E1; [|discriminate]. simpl in H. inv H.
    exact (IH (measure p1) Hd p1 eq_refl _ _ E1).
Qed.

Lemma runTop_RecursionLimitErr p p' w :
  runTop p = Ok (Some RecursionLimitErr) p' w -> p' = p /\ w = [].
Proof.
  unfold runTop. destruct p as [st o rd]; simpl.
  destruct st as [|[[a|] x] st]; try discriminate.
  destruct st as [|[pa pv] st];
    destruct a; unfold_parser; simpl; intros H; split_body H.
  all: inv H; short_reads; try discriminate.
  all: split; reflexivity.
Qed.

(** X5: calling [Run] again with nothing new on the source changes
    nothing. After nil the stack holds the root alone and the next [Run]
    returns nil at once, writing nothing; after [ErrShortRead] it returns
    [ErrShortRead] again with the same state; after [RecursionLimitErr] it
    returns [RecursionLimitErr] for ever, the parser being left exactly
    where it was. *)
Theorem Run_again p e p' w :
  Run p = Ok e p' w ->
  (e = None -> length (stack p') = 1 /\ Run p' = Ok None p' [])
  /\ (e = Some ErrShortRead ->
      outcome (Run p') = Some (Some ErrShortRead, p'))
  /\ (e = Some RecursionLimitErr ->
      Run p' = Ok (Some RecursionLimitErr) p' []).
Proof.
  intros HR. split; [|split]; intros He; subst e.
  - pose proof (Run_nil_depth _ _ _ HR) as Hl. split; [exact Hl|].
    rewrite Run_unfold, Hl. reflexivity.
  - pose proof (Run_feed [] p) as Hf. rewrite HR in Hf.
    rewrite !feed_nil in Hf. rewrite Hf, HR. reflexivity.
  - destruct (Run_fails_at _ _ _ _ HR) as (q & w' & Hs & Hl & Hq).
    destruct (runTop_RecursionLimitErr _ _ _ Hq) as [-> ->].
    rewrite Run_unfold.
    destruct (length (stack q) =? 1) eqn:E; [apply Nat.eqb_eq in E; contradiction|].
    rewrite Hq. reflexivity.
Qed.

Lemma Run_again_witness :
  let p := parserOn 10 (B "*2" ++ crlf ++ B "$3" ++ crlf ++ B "fo") in
  exists p' w,
    Run p = Ok (Some ErrShortRead) p' w
    /\ outcome (Run p') = Some (Some ErrShortRead, p').
Proof.
  eexists. eexists. split; [reflexivity|].
  refine (proj1 (proj2 (Run_again
            (parserOn 10 (B "*2" ++ crlf ++ B "$3" ++ crlf ++ B "fo"))
            _ _ _ eq_refl)) eq_refl).
Defined.

(** ** After an error *)

Lemma Run_stops_at p q e q' :
  steps p q -> length (stack q) <> 1 ->
  outcome (runTop q) = Some (Some e, q') ->
  outcome (Run p) = Some (Some e, q').
Proof.
  intros Hs Hl Hq. rewrite (steps_Run _ _ Hs), Run_unfold.
  destruct (length (stack q) =? 1) eqn:E; [apply Nat.eqb_eq in E; contradiction|].
  destruct (runTop q) as [[e1|] p1 w1|]; simpl in Hq; inv Hq. reflexivity.
Qed.

(** X6: [ProtocolErr] is not remembered. The frame that read the
    unrecognised tag is popped, with nil, before the tag is looked at, and
    the tag byte is consumed: at top level the next [Run] returns nil with
    a nil result; inside an array the next [Run] takes nil for the element
    and goes on from the byte after the tag. *)
Theorem ProtocolErr_is_not_remembered lim c t :
  handlers c = None ->
  let o := {| BulkCaptureLimit := lim |} in
  let p1 := mk [root VNil] o (reader.advance 1 (reader.New (c :: t))) in
  let input := tagArray :: itoa 1 ++ crlf ++ c :: t in
  let rd2 := reader.advance 1 (reader.advance (S (length (itoa 1) + 2))
                                               (reader.New input)) in
  let p2 := mk [fr (parseNArrayFields 1) VNil; root (VArray [])] o rd2 in
  (outcome (Run (parserOn lim (c :: t))) = Some (Some ProtocolErr, p1)
   /\ Run p1 = Ok None p1 [])
  /\ (outcome (Run (parserOn lim input)) = Some (Some ProtocolErr, p2)
      /\ outcome (Run p2) = Some (None, mk [root (VArray [VNil])] o rd2)
      /\ reader.avail rd2 = t).
Proof.
  intros Hc o p1 input rd2 p2. split; [split|split; [|split]].
  - apply (Run_stops_at _ _ _ _ (steps_refl _)); [simpl; lia|].
    pose proof (step_parseValue o (reader.New (c :: t)) (root VNil) [] VNil c t
                  eq_refl) as H.
    rewrite Hc in H. apply H. unfold stackLimit. simpl. lia.
  - apply Run_done. reflexivity.
  - set (rd1 := reader.advance (S (length (itoa 1) + 2)) (reader.New input)).
    assert (Ha : reader.avail rd1 = c :: t)
      by (apply (header_avail tagArray 1 (reader.New input) (c :: t)); reflexivity).
    apply (Run_stops_at _
             (mk [fr parseValue VNil; fr (parseNArrayFields 1) VNil; root (VArray [])]
                 o rd1)).
    + eapply steps_trans.
      * apply (header_steps o tagArray parseArray 1 (reader.New input) VNil
                 (root VNil) [] (c :: t)); try reflexivity.
        unfold stackLimit. simpl. lia.
      * apply steps_one; [simpl; lia|].
        exact (step_parseArray o rd1 (withResult VNil (root VNil)) [] 1).
    + simpl. lia.
    + pose proof (step_parseValue o rd1 (fr (parseNArrayFields 1) VNil)
                    [root (VArray [])] VNil c t Ha) as H.
      rewrite Hc in H. apply H. unfold stackLimit. simpl. lia.
  - rewrite (steps_Run _ (mk [root (VArray [VNil])] o rd2)).
    + rewrite Run_done; reflexivity.
    + apply steps_one; [simpl; lia|].
      exact (step_parseNArrayFields o rd2 (root (VArray [])) [] 1 VNil [] eq_refl).
  - unfold rd2.
    rewrite (avail_after _ [c] t); [reflexivity|].
    apply (header_avail tagArray 1 (reader.New input) (c :: t)). reflexivity.
Qed.

Lemma ProtocolErr_is_not_remembered_witness :
  let o := {| BulkCaptureLimit := 10 |} in
  let p1 := mk [root VNil] o (reader.advance 1 (reader.New (B "?rest"))) in
  outcome (Run (parserOn 10 (B "?rest"))) = Some (Some ProtocolErr, p1)
  /\ Run p1 = Ok None p1 [].
Proof.
  exact (proj1 (ProtocolErr_is_not_remembered 10 "?"%byte (B "rest") eq_refl)).
Defined.

(** X7: a line after [:], [$] or [*] that [Atoi] refuses is consumed,
    and the frame of [startParseInt] stays on the stack, above the frame
    of [startParseBulk] or [startParseArray] if the line was a length or a
    count: [Run] returns the error as [Atoi] gave it, and the next [Run]
    reads the line that follows as the integer, the length or the count
    and hands it to the frame below. *)
Theorem NumError_consumes_the_line o rd x parent rest c k s e t :
  handlers c = Some (fr parseInt VNil :: k) ->
  S (S (length rest)) <= stackLimit ->
  reader.avail rd = c :: s ++ crlf ++ t ->
  noLF s = true -> Atoi s = inr e ->
  let rd1 := reader.advance (length s + 2) (reader.advance 1 rd) in
  let below := k ++ withResult VNil parent :: rest in
  outcome (Run (mk (fr parseValue x :: parent :: rest) o rd))
  = Some (Some (NumError e), mk (fr parseInt VNil :: below) o rd1)
  /\ reader.avail rd1 = t
  /\ forall s' i t',
       t = s' ++ crlf ++ t' -> noLF s' = true -> Atoi s' = inl i ->
       steps (mk (fr parseInt VNil :: below) o rd1)
             (mk (popInto (VInt i) below) o (reader.advance (length s' + 2) rd1)).
Proof.
  intros Hc Hd Ha Hs He rd1 below.
  assert (Ha0 : reader.avail (reader.advance 1 rd) = s ++ crlf ++ t)
    by (apply (avail_after rd [c]); exact Ha).
  assert (Ha1 : reader.avail rd1 = t) by (apply (avail_after_line _ s _ Ha0)).
  assert (Hb : exists g st, below = g :: st).
  { unfold below. destruct k as [|g k']; simpl; eauto. }
  destruct Hb as (g & st & Hb). rewrite Hb.
  split; [|split].
  - apply (Run_stops_at _ (mk (fr parseInt VNil :: g :: st) o (reader.advance 1 rd))).
    + apply steps_one; [simpl; lia|].
      pose proof (step_parseValue o rd parent rest x c (s ++ crlf ++ t) Ha Hd) as H.
      rewrite Hc in H. rewrite <- Hb. exact H.
    + simpl. lia.
    + pose proof (step_parseInt o (reader.advance 1 rd) g st VNil s t Ha0 Hs) as H.
      rewrite He in H. exact H.
  - exact Ha1.
  - intros s' i t' Ht Hs' Hi. rewrite Ht in Ha1.
    apply steps_one; [simpl; lia|].
    pose proof (step_parseInt o rd1 g st VNil s' t' Ha1 Hs') as H.
    rewrite Hi in H. exact H.
Qed.

(** A length that is not a number, then the length 3: the second [Run]
    takes 3 for the length of the bulk string. *)
Lemma NumError_consumes_the_line_witness :
  let o := {| BulkCaptureLimit := 10 |} in
  let t := B "3" ++ crlf ++ foo ++ crlf in
  let rd := reader.New (tagBulk :: B "abc" ++ crlf ++ t) in
  let rd1 := reader.advance (length (B "abc") + 2) (reader.advance 1 rd) in
  let below := [fr parseBulk VNil] ++ withResult VNil (root VNil) :: [] in
  outcome (Run (mk (fr parseValue VNil :: root VNil :: []) o rd))
  = Some (Some (NumError ErrSyntax), mk (fr parseInt VNil :: below) o rd1)
  /\ reader.avail rd1 = t
  /\ forall s' i t',
       t = s' ++ crlf ++ t' -> noLF s' = true -> Atoi s' = inl i ->
       steps (mk (fr parseInt VNil :: below) o rd1)
             (mk (popInto (VInt i) below) o (reader.advance (length s' + 2) rd1)).
Proof.
  apply (NumError_consumes_the_line {| BulkCaptureLimit := 10 |}
           (reader.New (tagBulk :: B "abc" ++ crlf ++ B "3" ++ crlf ++ foo ++ crlf))
           VNil (root VNil) [] tagBulk [fr parseBulk VNil] (B "abc") ErrSyntax
           (B "3" ++ crlf ++ foo ++ crlf));
    [reflexivity | unfold stackLimit; simpl; lia | reflexivity | reflexivity
    | reflexivity].
Defined.

(** ** The length of a run *)

Lemma weight_bound st : list_sum (map weight st) <= 2 * length st.
Proof.
  induction st as [|f st IH]; [simpl; lia|].
  assert (weight f <= 2) by (destruct f as [[[]|] v]; unfold weight; simpl; lia).
  change (weight f + list_sum (map weight st) <= 2 * S (length st)). lia.
Qed.

(** X9: the loop of [Run] ends: it makes at most
    [8 * buffered bytes + 4 * stack depth + 2] passes, whatever the
    bytes are, and more fuel does not change what it returns. *)
Theorem Run_loop_bound p fuel :
  8 * length (reader.avail (r p)) + 4 * length (stack p) + 1 < fuel ->
  Run_fuel fuel p = Some (Run p).
Proof.
  intros H. apply Run_fuel_Run. unfold measure.
  pose proof (weight_bound (stack p)).
  assert (pending (stack p) <= 1)
    by (unfold pending; destruct (stack p) as [|[[[]|] ?] ?]; simpl; lia).
  lia.
Qed.

Lemma Run_loop_bound_witness :
  Run_fuel 100 (parserOn 10 (B "*1" ++ crlf ++ B ":7" ++ crlf))
  = Some (Run (parserOn 10 (B "*1" ++ crlf ++ B ":7" ++ crlf))).
Proof.
  apply (Run_loop_bound (parserOn 10 (B "*1" ++ crlf ++ B ":7" ++ crlf)) 100).
  simpl. lia.
Defined.

(** ** What is read without being looked at *)

(** X11: the two bytes after the payload of a bulk string are skipped
    without being looked at: whatever they are, the bulk string completes
    with the result it would have before CR LF, and the source stands
    behind them. *)
Theorem bulk_terminator_is_not_checked lim b x y t :
  (size b + 2 <= maxInt)%Z ->
  let o := {| BulkCaptureLimit := lim |} in
  let input := tagBulk :: itoa (size b) ++ crlf ++ b ++ x :: y :: t in
  let rd' := reader.advance (length b + 2)
               (reader.advance (S (length (itoa (size b)) + 2)) (reader.New input)) in
  outcome (Run (parserOn lim input))
  = Some (None, mk [root (decoded lim (Bulk b))] o rd')
  /\ reader.avail rd' = t.
Proof.
  intros Hb o input rd'.
  assert (Hn : inInt (size b) = true).
  { unfold inInt, size, minInt in *. apply andb_true_intro.
    split; apply Z.leb_le; lia. }
  set (rd1 := reader.advance (S (length (itoa (size b)) + 2)) (reader.New input)).
  assert (Ha : reader.avail rd1 = b ++ x :: y :: t)
    by (apply (header_avail tagBulk (size b) (reader.New input)); reflexivity).
  assert (Hneg : (size b <? 0)%Z = false) by (apply Z.ltb_ge; unfold size; lia).
  split.
  - rewrite (steps_Run _ (mk [root (decoded lim (Bulk b))] o rd')).
    { rewrite Run_done; reflexivity. }
    eapply steps_trans.
    { apply (header_steps o tagBulk parseBulk (size b) (reader.New input) VNil
               (root VNil) [] (b ++ x :: y :: t) eq_refl Hn eq_refl).
      unfold stackLimit. simpl. lia. }
    fold rd1. simpl decoded.
    pose proof (step_parseBulk o rd1 (withResult VNil (root VNil)) [] (size b)) as H1.
    rewrite Hneg in H1. simpl BulkCaptureLimit in H1.
    destruct (size b <=? lim)%Z eqn:El.
    + eapply steps_step; [simpl; lia | exact H1 |].
      apply steps_one; [simpl; lia|].
      apply (step_parseBulkN_done o rd1 (withResult VNil (withResult VNil (root VNil)))
               [] [] (size b) VNil b (x :: y :: t) Ha).
      unfold size. apply Nat2Z.id.
    + apply steps_one; [simpl; lia|].
      rewrite wrapInt_id in H1.
      * unfold reader.Discard, size in H1.
        replace (Z.to_nat (Z.of_nat (length b) + 2)) with (length b + 2) in H1 by lia.
        exact H1.
      * unfold inInt, size, minInt in *. apply andb_true_intro.
        split; apply Z.leb_le; lia.
  - unfold rd'. fold rd1.
    replace (length b + 2) with (length (b ++ [x; y]))
      by (rewrite length_app; reflexivity).
    apply avail_after. rewrite Ha, <- app_assoc. reflexivity.
Qed.

Lemma bulk_terminator_is_not_checked_witness :
  let o := {| BulkCaptureLimit := 10 |} in
  let input := tagBulk :: itoa (size foo) ++ crlf ++ foo ++ "X"%byte :: "Y"%byte :: B ":7" in
  let rd' := reader.advance (length foo + 2)
               (reader.advance (S (length (itoa (size foo)) + 2)) (reader.New input)) in
  outcome (Run (parserOn 10 input))
  = Some (None, mk [root (decoded 10 (Bulk foo))] o rd')
  /\ reader.avail rd' = B ":7".
Proof.
  apply (bulk_terminator_is_not_checked 10 foo "X"%byte "Y"%byte (B ":7")).
  vm_compute. discriminate.
Defined.

(** X12: a count of zero is not an empty array. [startParseArray]
    installs the frame for a first element whatever the count, and
    [startParseNArrayFields] stops only when the count is not above 1, so
    the value that follows [*0\r\n] becomes the one element of the array,
    as after [*1\r\n]. *)
Theorem zero_count_takes_one_element lim e tail :
  valid e = true -> populated e = true -> nesting e + 3 <= stackLimit ->
  let o := {| BulkCaptureLimit := lim |} in
  let input := tagArray :: itoa 0 ++ crlf ++ encode e ++ tail in
  let rd' := reader.advance (length (encode e))
               (reader.advance (S (length (itoa 0) + 2)) (reader.New input)) in
  outcome (Run (parserOn lim input))
  = Some (None, mk [root (VArray [decoded lim e])] o rd')
  /\ reader.avail rd' = tail.
Proof.
  intros Hv Hp Hn o input rd'.
  set (rd1 := reader.advance (S (length (itoa 0) + 2)) (reader.New input)).
  assert (Ha : reader.avail rd1 = encode e ++ tail)
    by (apply (header_avail tagArray 0 (reader.New input)); reflexivity).
  split; [|exact (avail_after _ _ _ Ha)].
  rewrite (steps_Run _ (mk [root (VArray [decoded lim e])] o rd')).
  { rewrite Run_done; reflexivity. }
  eapply steps_trans.
  { apply (header_steps o tagArray parseArray 0 (reader.New input) VNil
             (root VNil) [] (encode e ++ tail) eq_refl eq_refl eq_refl).
    unfold stackLimit. simpl. lia. }
  eapply steps_step;
    [simpl; lia
    | exact (step_parseArray o rd1 (withResult VNil (root VNil)) [] 0) |].
  eapply steps_trans.
  { apply (decodes_value o e Hv Hp rd1 VNil (fr (parseNArrayFields 0) VNil)
             [root (VArray [])] tail Ha).
    simpl. lia. }
  apply steps_one; [simpl; lia|].
  exact (step_parseNArrayFields o rd' (root (VArray [])) [] 0
           (decoded lim e) [] eq_refl).
Qed.

Lemma zero_count_takes_one_element_witness :
  let o := {| BulkCaptureLimit := 10 |} in
  let input := tagArray :: itoa 0 ++ crlf ++ encode (Bulk foo) ++ B ":7" ++ crlf in
  let rd' := reader.advance (length (encode (Bulk foo)))
               (reader.advance (S (length (itoa 0) + 2)) (reader.New input)) in
  outcome (Run (parserOn 10 input))
  = Some (None, mk [root (VArray [decoded 10 (Bulk foo)])] o rd')
  /\ reader.avail rd' = B ":7" ++ crlf.
Proof.
  apply (zero_count_takes_one_element 10 (Bulk foo) (B ":7" ++ crlf));
    [reflexivity | reflexivity | unfold stackLimit; simpl; lia].
Defined.

(** ** Lengths that are not lengths *)

(** X14: every negative length after [$] gives nil, not only [-1]:
    [startParseBulk] tests [result < 0] and pops nil, reading nothing
    after the header. *)
Theorem negative_bulk_length_is_nil lim n tail :
  (n < 0)%Z -> inInt n = true ->
  let o := {| BulkCaptureLimit := lim |} in
  let input := tagBulk :: itoa n ++ crlf ++ tail in
  let rd' := reader.advance (S (length (itoa n) + 2)) (reader.New input) in
  outcome (Run (parserOn lim input)) = Some (None, mk [root VNil] o rd')
  /\ reader.avail rd' = tail.
Proof.
  intros Hneg Hn o input rd'. split.
  - rewrite (steps_Run _ (mk [root VNil] o rd')).
    { rewrite Run_done; reflexivity. }
    eapply steps_trans.
    { apply (header_steps o tagBulk parseBulk n (reader.New input) VNil
               (root VNil) [] tail eq_refl Hn eq_refl).
      unfold stackLimit. simpl. lia. }
    apply steps_one; [simpl; lia|].
    pose proof (step_parseBulk o rd' (withResult VNil (root VNil)) [] n) as H1.
    apply Z.ltb_lt in Hneg. rewrite Hneg in H1. exact H1.
  - apply (header_avail tagBulk n (reader.New input)). reflexivity.
Qed.

Lemma negative_bulk_length_is_nil_witness :
  let o := {| BulkCaptureLimit := 10 |} in
  let input := tagBulk :: itoa (-5) ++ crlf ++ B ":7" ++ crlf in
  let rd' := reader.advance (S (length (itoa (-5)) + 2)) (reader.New input) in
  outcome (Run (parserOn 10 input)) = Some (None, mk [root VNil] o rd')
  /\ reader.avail rd' = B ":7" ++ crlf.
Proof.
  apply (negative_bulk_length_is_nil 10 (-5) (B ":7" ++ crlf));
    [lia | reflexivity].
Defined.

(** ** The parser as [NewParser] makes it *)

Lemma nesting_bulks bs :
  fold_right (fun e m => Nat.max (nesting e) m) 0 (map Bulk bs) = 0.
Proof. induction bs as [|b bs IH]; simpl; [|rewrite IH]; reflexivity. Qed.

(** X15: [NewParser] leaves the capture limit at zero, so a parser
    whose options are not touched keeps no payload: of a command made of
    non-empty bulk strings, [Result] holds the lengths, and [BulkArray]
    returns nil for every argument. *)
Theorem NewParser_keeps_no_payload bs :
  bs <> [] ->
  forallb (fun b => negb (length b =? 0) && (size b + 2 <=? maxInt)%Z) bs = true ->
  (Z.of_nat (length bs) <= maxInt)%Z ->
  exists p0 p',
    outcome (NewParser (reader.New (encode (Array (map Bulk bs))))) = Some (tt, p0)
    /\ outcome (Run p0) = Some (None, p')
    /\ outcome (Result p') = Some (VArray (map (fun b => VInt (size b)) bs), p')
    /\ outcome (BulkArray p') = Some (map (fun _ => None) bs, p').
Proof.
  intros Hne Hbs Hlen.
  set (v := Array (map Bulk bs)).
  assert (Hd : decoded 0 v = VArray (map (fun b => VInt (size b)) bs)).
  { unfold v. simpl. f_equal. rewrite map_map.
    rewrite forallb_forall in Hbs. apply map_ext_in. intros b Hb.
    specialize (Hbs b Hb). apply andb_prop in Hbs. destruct Hbs as [Hb0 _].
    simpl. destruct (size b <=? 0)%Z eqn:E; [|reflexivity].
    apply Z.leb_le in E. unfold size in E.
    destruct b; [discriminate Hb0 | simpl in E; lia]. }
  exists (parserOn 0 (encode v)), (finished 0 (encode v) (decoded 0 v)).
  split; [reflexivity|]. split; [|split].
  - apply Run_decodes.
    + unfold v. simpl. rewrite length_map. apply andb_true_intro. split.
      * apply Z.leb_le. exact Hlen.
      * rewrite forallb_forall in *. intros e He. apply in_map_iff in He.
        destruct He as (b & <- & Hb). specialize (Hbs b Hb).
        apply andb_prop in Hbs. destruct Hbs as [_ Hb2]. exact Hb2.
    + unfold v. simpl. rewrite length_map. apply andb_true_intro. split.
      * destruct bs; [contradiction|reflexivity].
      * rewrite forallb_forall. intros e He. apply in_map_iff in He.
        destruct He as (b & <- & _). reflexivity.
    + unfold v. simpl. rewrite nesting_bulks. unfold stackLimit. lia.
  - rewrite Hd. reflexivity.
  - rewrite (BulkArray_of_array (finished 0 (encode v) (decoded 0 v))
               (root (decoded 0 v)) [] (map (fun b => VInt (size b)) bs) eq_refl).
    + rewrite map_map. reflexivity.
    + rewrite Hd. reflexivity.
Qed.

Lemma NewParser_keeps_no_payload_witness :
  exists p0 p',
    outcome (NewParser (reader.New (encode (Array (map Bulk [foo; bar])))))
    = Some (tt, p0)
    /\ outcome (Run p0) = Some (None, p')
    /\ outcome (Result p')
       = Some (VArray (map (fun b => VInt (size b)) [foo; bar]), p')
    /\ outcome (BulkArray p') = Some (map (fun _ => None) [foo; bar], p').
Proof.
  apply (NewParser_keeps_no_payload [foo; bar]);
    [discriminate | reflexivity | vm_compute; discriminate].
Defined.
